(** * The comparison page of the prop-firm pricing site

    A shallow embedding of [src/app/page.tsx]: the row projection
    [toFirmRows], the highlight values [cheapestFee] and [nextBestFee], the
    order of the pricing table and the cells of a table row that depend on
    them.

    Conventions of the embedding.
    - Amounts (account sizes, fees) are whole currency units, modelled as [Z].
      The quotient [fee / size * 10000] is computed as the source computes
      it, in binary64: the division is rounded, then the product is rounded,
      and a division by zero leaves an infinity or NaN.
    - [null] and [undefined] are both [None]: the fields of [FirmRow] that
      the source declares with [| null] or [?] are options.
    - The catalog ([propFirms], [accountSizes]) lives in [@/lib/propfirms];
      it is an argument of every function that reads it.
    - [Array.prototype.sort] places the elements one after the other, asking
      the comparison function about the new element and its left neighbour.
      The language leaves the order of the two arguments of that call to
      the engine, so the engine is an argument as well (see [engine]). *)

From Stdlib Require Import ZArith String Ascii List Bool Lia.
From Stdlib Require Floats.SpecFloat.
From Stdlib Require Import Sorting.Permutation Sorting.Sorted.
From Stdlib Require Import Numbers.DecimalString.
From Stdlib Require Numbers.DecimalPos Numbers.DecimalZ.
Import ListNotations.

Local Open Scope Z_scope.

(* ------------------------------------------------------------------ *)
(** * JavaScript numbers that come out of a division *)

Module JsNumber.

(** A JavaScript number: an IEEE 754 binary64 value. *)
Definition number : Type := SpecFloat.spec_float.

(** The precision and the exponent bound of binary64. *)
Definition prec : Z := 53.
Definition emax : Z := 1024.

(** The number that a whole amount denotes (rounded to nearest, ties to
    even, beyond 2^53). *)
Definition ofZ (z : Z) : number := SpecFloat.binary_normalize prec emax z 0 false.

(** [a / b] for whole [a] and [b]: one rounded binary64 division. *)
Definition div (a b : Z) : number := SpecFloat.SFdiv prec emax (ofZ a) (ofZ b).

(** [x * k] for a whole factor [k]: one rounded binary64 multiplication. *)
Definition mulZ (x : number) (k : Z) : number := SpecFloat.SFmul prec emax x (ofZ k).

End JsNumber.

Definition number : Type := JsNumber.number.

Arguments JsNumber.div : simpl never.
Arguments JsNumber.mulZ : simpl never.

(* ------------------------------------------------------------------ *)
(** * The catalog: [@/lib/propfirms] *)

Module Tier.

(** Modelled from the spec: the element type of [PropFirm.accounts], declared
    in [@/lib/propfirms]; the fields are the ones [toFirmRows] reads and the
    data model of the specification lists for an account tier. *)
Record t : Type := mk {
  size : Z;
  fee : Z;
  payoutSplit : string;
  maxDrawdown : string;
  profitTarget : string;
  evaluationPhases : Z;
  minTradingDays : Z
}.

End Tier.

Module Firm.

(** Modelled from the spec: the type [PropFirm] imported from
    [@/lib/propfirms]; the fields are the ones the page reads and the data
    model of the specification lists for a firm. *)
Record t : Type := mk {
  name : string;
  tagline : string;
  website : string;
  founded : Z;
  headquartered : string;
  strengths : list string;
  cautions : list string;
  accounts : list Tier.t
}.

End Firm.

Definition PropFirm : Type := Firm.t.

(* ------------------------------------------------------------------ *)
(** * Display rows *)

Module Row.

(** [type FirmRow] of the page. *)
Record t : Type := mk {
  firm : PropFirm;
  accountSize : Z;
  fee : option Z;
  feePer10k : option number;
  payoutSplit : option string;
  drawdown : option string;
  profitTarget : option string;
  evaluationPhases : option Z;
  minTradingDays : option Z
}.

End Row.

Definition FirmRow : Type := Row.t.

(** [firm.accounts.find((item) => item.size === size)]. *)
Definition findAccount (firm : PropFirm) (size : Z) : option Tier.t :=
  find (fun item => Tier.size item =? size) (Firm.accounts firm).

(** The callback that [toFirmRows] maps over the catalog. *)
Definition toFirmRow (size : Z) (firm : PropFirm) : FirmRow :=
  match findAccount firm size with
  | None =>
      {| Row.firm := firm;
         Row.accountSize := size;
         Row.fee := None;
         Row.feePer10k := None;
         Row.payoutSplit := None;
         Row.drawdown := None;
         Row.profitTarget := None;
         Row.evaluationPhases := None;
         Row.minTradingDays := None |}
  | Some account =>
      let feePer10k :=
        JsNumber.mulZ (JsNumber.div (Tier.fee account) (Tier.size account)) 10000 in
      {| Row.firm := firm;
         Row.accountSize := size;
         Row.fee := Some (Tier.fee account);
         Row.feePer10k := Some feePer10k;
         Row.payoutSplit := Some (Tier.payoutSplit account);
         Row.drawdown := Some (Tier.maxDrawdown account);
         Row.profitTarget := Some (Tier.profitTarget account);
         Row.evaluationPhases := Some (Tier.evaluationPhases account);
         Row.minTradingDays := Some (Tier.minTradingDays account) |}
  end.

(** [toFirmRows]; the catalog [propFirms] is a module constant of
    [@/lib/propfirms] and is taken as an argument. *)
Definition toFirmRows (propFirms : list PropFirm) (size : Z) : list FirmRow :=
  map (toFirmRow size) propFirms.

(** A firm offers a tier of the given size. *)
Definition hasTier (firm : PropFirm) (size : Z) : Prop :=
  exists account, In account (Firm.accounts firm) /\ Tier.size account = size.

(** The descriptive fields of a row that come from the matched tier. *)
Definition descriptivePresent (row : FirmRow) : Prop :=
  Row.payoutSplit row <> None /\
  Row.drawdown row <> None /\
  Row.profitTarget row <> None /\
  Row.evaluationPhases row <> None /\
  Row.minTradingDays row <> None.

Definition descriptiveAbsent (row : FirmRow) : Prop :=
  Row.payoutSplit row = None /\
  Row.drawdown row = None /\
  Row.profitTarget row = None /\
  Row.evaluationPhases row = None /\
  Row.minTradingDays row = None.

(* ------------------------------------------------------------------ *)
(** * [Array.prototype.sort] *)

Module ArraySort.

(** The language fixes the result of a sort only for a consistent
    comparison function (see [consistent]) and otherwise leaves the sequence
    of calls, and with it the order of the result, to the engine.  An engine
    that inserts a pivot into the part of the array already placed asks
    about the pivot and its left neighbour.  It either calls
    [comparefn(pivot, placed)] and moves the pivot left on a negative answer
    ([PivotFirst]), or calls [comparefn(placed, pivot)] and moves the pivot
    left on a positive answer ([PlacedFirst]).  On consistent answers both
    are the same stable sort ([sort_consistent] below).  On inconsistent
    answers they are two of the orders an engine may produce, not all of
    them: an engine that sorts by another method may order the elements
    that the comparison function does not order in yet another way. *)
Inductive engine : Type :=
| PivotFirst
| PlacedFirst.

Section Sort.

Context {A : Type}.
Variable e : engine.
Variable comparefn : A -> A -> Z.

(** Does the pivot move in front of its left neighbour [placed]? *)
Definition movesBefore (placed pivot : A) : bool :=
  match e with
  | PivotFirst => comparefn pivot placed <? 0
  | PlacedFirst => 0 <? comparefn placed pivot
  end.

(** The placed part is held back to front: its head is the left neighbour
    of the pivot. *)
Fixpoint insertPivot (pivot : A) (placedRev : list A) : list A :=
  match placedRev with
  | [] => [pivot]
  | placed :: rest =>
      if movesBefore placed pivot
      then placed :: insertPivot pivot rest
      else pivot :: placedRev
  end.

Definition sortFrom (placedRev items : list A) : list A :=
  fold_left (fun acc pivot => insertPivot pivot acc) items placedRev.

Definition sort (items : list A) : list A := rev (sortFrom [] items).

(** A consistent comparison function on the values [S], as the language
    defines it: equality by [comparefn] is reflexive, symmetric and
    transitive, and so are "less" and "greater" transitive. *)
Definition consistent (S : A -> Prop) : Prop :=
  (forall a, S a -> comparefn a a = 0) /\
  (forall a b, S a -> S b -> comparefn a b = 0 -> comparefn b a = 0) /\
  (forall a b c, S a -> S b -> S c ->
     comparefn a b = 0 -> comparefn b c = 0 -> comparefn a c = 0) /\
  (forall a b c, S a -> S b -> S c ->
     comparefn a b < 0 -> comparefn b c < 0 -> comparefn a c < 0) /\
  (forall a b c, S a -> S b -> S c ->
     comparefn a b > 0 -> comparefn b c > 0 -> comparefn a c > 0).

End Sort.

End ArraySort.

Definition engine : Type := ArraySort.engine.

(* ------------------------------------------------------------------ *)
(** * Formatting *)

(** Thousands separators, on the digits taken from the right. *)
Fixpoint groupThousands (digitsRev : list ascii) : list ascii :=
  match digitsRev with
  | a :: b :: c :: ((_ :: _) as rest) =>
      a :: b :: c :: ","%char :: groupThousands rest
  | _ => digitsRev
  end.

Definition digits (n : N) : list ascii :=
  list_ascii_of_string (NilZero.string_of_uint (N.to_uint n)).

(** [value.toLocaleString()] of a whole number in the [en-US] locale. *)
Definition toLocaleString (value : Z) : string :=
  let sign := if value <? 0 then "-"%string else EmptyString in
  let grouped := rev (groupThousands (rev (digits (Z.abs_N value)))) in
  (sign ++ string_of_list_ascii grouped)%string.

(** [value.toFixed(0)] of a whole number. *)
Definition toFixed0 (value : Z) : string :=
  NilZero.string_of_int (Z.to_int value).

(** The placeholder glyph of the page (an em dash). *)
Definition placeholder : string := "—"%string.

(** [formatCurrency]. *)
Definition formatCurrency (value : option Z) : string :=
  match value with
  | None => placeholder
  | Some v => ("$" ++ toLocaleString v)%string
  end.

(* ------------------------------------------------------------------ *)
(** * The page component *)

(** [useState<number>(10000)]: the selected size of a fresh page. *)
Definition initialSelectedSize : Z := 10000.

(** [row.fee !== null]. *)
Definition feeNotNull (row : FirmRow) : bool :=
  match Row.fee row with Some _ => true | None => false end.

(** [row.fee as number]: a type assertion, applied to filtered rows only;
    the value given to an absent fee is never read. *)
Definition feeAsNumber (row : FirmRow) : Z :=
  match Row.fee row with Some f => f | None => 0 end.

(** [(a, b) => a - b]. *)
Definition compareFees (a b : Z) : Z := a - b.

(** The comparison function of the table:
    [if (a.fee === null) return 1; if (b.fee === null) return -1;
     return a.fee - b.fee]. *)
Definition compareRows (a b : FirmRow) : Z :=
  match Row.fee a with
  | None => 1
  | Some fa =>
      match Row.fee b with
      | None => -1
      | Some fb => fa - fb
      end
  end.

(** [x === y] on fees that may be [null]. *)
Definition strictEqual (x y : option Z) : bool :=
  match x, y with
  | Some a, Some b => a =? b
  | None, None => true
  | _, _ => false
  end.

Definition notNull {T : Type} (x : option T) : bool :=
  match x with Some _ => true | None => false end.

(** The cells of a table row that depend on the highlight values. *)
Record TableRow : Type := mkTableRow {
  key : string;
  cheapestBadge : bool;
  upfrontFee : string;
  savings : option string
}.

Section Page.

Variable e : engine.
Variable propFirms : list PropFirm.
Variable selectedSize : Z.

Definition rows : list FirmRow := toFirmRows propFirms selectedSize.

Definition presentFees : list Z := map feeAsNumber (filter feeNotNull rows).

Definition available : list Z := ArraySort.sort e compareFees presentFees.

(** [available[0] ?? null]. *)
Definition cheapestFee : option Z := nth_error available 0.

(** [available[1] ?? null]. *)
Definition nextBestFee : option Z := nth_error available 1.

(** [rows.slice().sort(...)]: a copy of the rows, in the order of the
    table. *)
Definition tableRows : list FirmRow := ArraySort.sort e compareRows rows.

(** [cheapestFee !== null && row.fee === cheapestFee]. *)
Definition isCheapest (row : FirmRow) : bool :=
  notNull cheapestFee && strictEqual (Row.fee row) cheapestFee.

(** The amount shown by the savings annotation,
    [Math.max(0, nextBestFee - row.fee)], when
    [isCheapest && row.fee !== null && nextBestFee !== null]. *)
Definition savingsAmount (row : FirmRow) : option Z :=
  match isCheapest row, Row.fee row, nextBestFee with
  | true, Some f, Some nb => Some (Z.max 0 (nb - f))%Z
  | _, _, _ => None
  end.

(** The text of the savings annotation, when it is rendered; the amount is
    printed by [toFixed(0)]. *)
Definition savingsNote (row : FirmRow) : option string :=
  match savingsAmount row with
  | Some amount => Some ("Save $" ++ toFixed0 amount ++ " vs. next option")%string
  | None => None
  end.

(** One [<tr>] of the table body. *)
Definition renderRow (row : FirmRow) : TableRow :=
  {| key := Firm.name (Row.firm row);
     cheapestBadge := isCheapest row;
     upfrontFee := formatCurrency (Row.fee row);
     savings := savingsNote row |}.

Definition tableBody : list TableRow := map renderRow tableRows.

End Page.

(* ------------------------------------------------------------------ *)
(** * Vocabulary of the statements *)

(** The fees that are present, in the order of the rows. *)
Fixpoint feesOf (rs : list FirmRow) : list Z :=
  match rs with
  | [] => []
  | row :: rest =>
      match Row.fee row with
      | Some f => f :: feesOf rest
      | None => feesOf rest
      end
  end.

(** The rows whose fee is [k] (a value, or absent). *)
Definition feeIs (k : option Z) (row : FirmRow) : bool :=
  strictEqual (Row.fee row) k.

(** The order of the table: ascending fees, absent fees last. *)
Definition feeOrder (a b : FirmRow) : Prop :=
  match Row.fee a, Row.fee b with
  | Some fa, Some fb => fa <= fb
  | Some _, None => True
  | None, None => True
  | None, Some _ => False
  end.

(** [m] is the least fee that is present among the rows. *)
Definition minimumFee (rs : list FirmRow) (m : Z) : Prop :=
  (exists row, In row rs /\ Row.fee row = Some m) /\
  (forall row f, In row rs -> Row.fee row = Some f -> m <= f).

(** The sizes of all tiers of the catalog, with repetitions. *)
Definition tierSizes (propFirms : list PropFirm) : list Z :=
  flat_map (fun firm => map Tier.size (Firm.accounts firm)) propFirms.

(** [s] is the smallest of the supported sizes. *)
Definition smallestSize (accountSizes : list Z) (s : Z) : Prop :=
  In s accountSizes /\ forall s', In s' accountSizes -> s <= s'.

(** A placed part, back to front, that holds the values of a class before
    all others. *)
Definition classFirst {A : Type} (p : A -> bool) (placedRev : list A) : Prop :=
  exists inClass others,
    placedRev = inClass ++ others /\
    Forall (fun a => p a = true) inClass /\
    Forall (fun a => p a = false) others.

(** [s] is a tier size that no other tier size of the catalog outnumbers. *)
Definition mostCommonTierSize (propFirms : list PropFirm) (s : Z) : Prop :=
  In s (tierSizes propFirms) /\
  forall s', (count_occ Z.eq_dec (tierSizes propFirms) s' <=
              count_occ Z.eq_dec (tierSizes propFirms) s)%nat.

(* ------------------------------------------------------------------ *)
(** * The other cells of a table row *)

(** A whole number inside a template literal. *)
Definition numberToString (n : Z) : string :=
  NilZero.string_of_int (Z.to_int n).

(** [x ?? placeholder] on a descriptive field. *)
Definition orPlaceholder (x : option string) : string :=
  match x with
  | Some s => s
  | None => placeholder
  end.

(** The cells of a table row to the right of the fee. *)
Record RiskCells : Type := mkRiskCells {
  feePer10kCell : string;
  payoutSplitCell : string;
  drawdownCell : string;
  profitTargetCell : string;
  minDaysCell : string;
  phasesCell : string
}.

Section Cells.

(** [value.toFixed(2)] rounds a double to two decimals; its digits depend on
    the binary rounding that the exact quotient does not carry, so it is an
    argument here. *)
Variable toFixed2 : number -> string.

(** [formatFeePer10k]. *)
Definition formatFeePer10k (value : option number) : string :=
  match value with
  | None => placeholder
  | Some v => ("$" ++ toFixed2 v)%string
  end.

Definition renderRiskCells (row : FirmRow) : RiskCells :=
  {| feePer10kCell := formatFeePer10k (Row.feePer10k row);
     payoutSplitCell := orPlaceholder (Row.payoutSplit row);
     drawdownCell := orPlaceholder (Row.drawdown row);
     profitTargetCell := orPlaceholder (Row.profitTarget row);
     minDaysCell :=
       match Row.minTradingDays row with
       | Some n => (numberToString n ++ " days")%string
       | None => placeholder
       end;
     phasesCell :=
       match Row.evaluationPhases row with
       | Some n => (numberToString n ++ "-step")%string
       | None => placeholder
       end |}.

End Cells.

(* ------------------------------------------------------------------ *)
(** * The size selector *)

(** [setSelectedSize(size)]: the state setter replaces the selection. *)
Definition setSelectedSize (size : Z) (selectedSize : Z) : Z := size.

(** One button of the selector; [onClick] is the effect of its handler on
    the selected size. *)
Record Pill : Type := mkPill {
  pillKey : Z;
  className : string;
  label : string;
  onClick : Z -> Z
}.

(** [accountSizes.map((size) => <button ...>)]. *)
Definition sizePills (accountSizes : list Z) (selectedSize : Z) : list Pill :=
  map (fun size =>
         {| pillKey := size;
            className :=
              let active := if selectedSize =? size then "active"%string else EmptyString in
              ("pill " ++ active)%string;
            label := ("$" ++ toLocaleString size)%string;
            onClick := setSelectedSize size |})
      accountSizes.

(** A click on the button at a position of the selector; there is no button
    to click beyond the supported sizes. *)
Definition clickPill (accountSizes : list Z) (i : nat) (selectedSize : Z) : Z :=
  match nth_error (sizePills accountSizes selectedSize) i with
  | Some pill => onClick pill selectedSize
  | None => selectedSize
  end.

(** The selected size of a page after a sequence of clicks. *)
Definition afterClicks (accountSizes : list Z) (clicks : list nat) : Z :=
  fold_left (fun selectedSize i => clickPill accountSizes i selectedSize)
            clicks initialSelectedSize.

(** The button carries the class of the selected size. *)
Definition isActive (pill : Pill) : bool :=
  String.eqb (className pill) "pill active".

(* ------------------------------------------------------------------ *)
(** * Reading a fee cell back *)

Definition removeCommas (s : string) : string :=
  string_of_list_ascii
    (filter (fun c => negb (Ascii.eqb c ","%char)) (list_ascii_of_string s)).

(** The fee that a fee cell shows: absent for the placeholder, the number
    after the dollar sign otherwise. *)
Definition parseCurrency (cell : string) : option (option Z) :=
  if String.eqb cell placeholder then Some None
  else
    match cell with
    | String "$"%char rest =>
        option_map (fun d => Some (Z.of_int d))
                   (NilZero.int_of_string (removeCommas rest))
    | _ => None
    end.

(** The signs of the two answers of a comparison function about a pair
    agree with each other. *)
Definition signsAgree (x y : Z) : Prop := Z.sgn x = - Z.sgn y.

(* ------------------------------------------------------------------ *)
(** * Sample catalogs *)

Definition tier100 : Tier.t := Tier.mk 10000 100 "80%" "10% max" "8%" 2 5.
Definition tier150 : Tier.t := Tier.mk 10000 150 "90%" "8% trailing" "10%" 1 3.
Definition tier25k : Tier.t := Tier.mk 25000 200 "80%" "10% max" "8%" 2 5.
Definition tier5k : Tier.t := Tier.mk 5000 60 "80%" "10% max" "8%" 2 5.
Definition tierFree : Tier.t := Tier.mk 10000 0 "70%" "5% max" "10%" 1 0.
Definition tier5kFee3 : Tier.t := Tier.mk 5000 3 "80%" "10% max" "8%" 2 5.

Definition firmNamed (n : string) (tiers : list Tier.t) : PropFirm :=
  Firm.mk n "tagline" "https://example.com" 2020 "London" [] [] tiers.

(* ------------------------------------------------------------------ *)
(** * Facts about lists *)

Section ListFacts.

Context {A : Type}.

Lemma StronglySorted_snoc (R : A -> A -> Prop) (l : list A) (x : A) :
  StronglySorted R l -> Forall (fun y => R y x) l -> StronglySorted R (l ++ [x]).
Proof.
  induction 1 as [|a l Hl IH Ha]; intros Hx; simpl.
  - repeat constructor.
  - inversion Hx; subst. constructor.
    + now apply IH.
    + apply Forall_app. split; [assumption|]. now repeat constructor.
Qed.

Lemma StronglySorted_rev (R : A -> A -> Prop) (l : list A) :
  StronglySorted (fun a b => R b a) l -> StronglySorted R (rev l).
Proof.
  induction 1 as [|a l Hl IH Ha]; simpl.
  - constructor.
  - apply StronglySorted_snoc; [assumption|].
    apply Forall_rev. assumption.
Qed.

Lemma StronglySorted_nth (R : A -> A -> Prop) (l : list A) :
  StronglySorted R l ->
  forall i j a b, (i < j)%nat ->
    nth_error l i = Some a -> nth_error l j = Some b -> R a b.
Proof.
  induction 1 as [|x l Hl IH Hx]; intros i j a b Hij Hi Hj.
  - destruct i; discriminate.
  - destruct j as [|j]; [lia|]. simpl in Hj.
    destruct i as [|i]; simpl in Hi.
    + injection Hi as <-. rewrite Forall_forall in Hx.
      apply Hx. eapply nth_error_In; eassumption.
    + apply (IH i j); [lia|assumption..].
Qed.

Lemma Forall_True (l : list A) : Forall (fun _ => True) l.
Proof. apply Forall_forall. trivial. Qed.

(** An element of a filtered list splits the list it was filtered from. *)
Lemma filter_eq_app_cons (p : A -> bool) (l : list A) :
  forall x a y, filter p l = x ++ a :: y ->
    exists l1 l2, l = l1 ++ a :: l2 /\ filter p l1 = x /\ filter p l2 = y.
Proof.
  induction l as [|h l IH]; intros x a y H; simpl in H.
  - destruct x; discriminate.
  - destruct (p h) eqn:Hp.
    + destruct x as [|x0 x]; simpl in H.
      * injection H as -> Hy. exists [], l. simpl. auto.
      * injection H as -> Hy. destruct (IH _ _ _ Hy) as (l1 & l2 & -> & H1 & H2).
        exists (x0 :: l1), l2. simpl. rewrite Hp, H1. auto.
    + destruct (IH _ _ _ H) as (l1 & l2 & -> & H1 & H2).
      exists (h :: l1), l2. simpl. rewrite Hp. auto.
Qed.

(** Two elements in a given order in a filtered list are in that order in
    the list it was filtered from. *)
Lemma filter_keeps_order (p : A -> bool) (l : list A) :
  forall x a y b z, filter p l = x ++ a :: y ++ b :: z ->
    exists l1 l2 l3, l = l1 ++ a :: l2 ++ b :: l3.
Proof.
  intros x a y b z H.
  destruct (filter_eq_app_cons p l _ _ _ H) as (l1 & l' & -> & _ & H').
  destruct (filter_eq_app_cons p l' _ _ _ H') as (l2 & l3 & -> & _ & _).
  now exists l1, l2, l3.
Qed.

End ListFacts.

(** On whole numbers a list has one ascending arrangement. *)
Lemma ascending_unique (l1 l2 : list Z) :
  StronglySorted Z.le l1 -> StronglySorted Z.le l2 -> Permutation l1 l2 -> l1 = l2.
Proof.
  revert l2. induction l1 as [|a l1 IH]; intros l2 H1 H2 HP.
  - apply Permutation_nil in HP. now subst.
  - destruct l2 as [|b l2].
    + apply Permutation_sym, Permutation_nil in HP. discriminate.
    + inversion H1 as [|? ? Hs1 Ha]; subst. inversion H2 as [|? ? Hs2 Hb]; subst.
      rewrite Forall_forall in Ha, Hb.
      assert (Hab : a = b).
      { assert (In a (b :: l2)) as [->|Ia]
          by (eapply Permutation_in; [exact HP|now left]); [reflexivity|].
        assert (In b (a :: l1)) as [->|Ib]
          by (eapply Permutation_in; [apply Permutation_sym; exact HP|now left]);
          [reflexivity|].
        specialize (Ha _ Ib). specialize (Hb _ Ia). lia. }
      subst b. f_equal. apply IH; [assumption..|].
      eapply Permutation_cons_inv; eassumption.
Qed.

(* ------------------------------------------------------------------ *)
(** * Facts about the sort *)

Section SortFacts.

Context {A : Type}.
Variable e : engine.
Variable comparefn : A -> A -> Z.

Local Abbreviation movesBefore := (ArraySort.movesBefore e comparefn).
Local Abbreviation insertPivot := (ArraySort.insertPivot e comparefn).
Local Abbreviation sortFrom := (ArraySort.sortFrom e comparefn).
Local Abbreviation sort := (ArraySort.sort e comparefn).

Lemma insertPivot_perm (pivot : A) (placedRev : list A) :
  Permutation (insertPivot pivot placedRev) (pivot :: placedRev).
Proof.
  induction placedRev as [|placed rest IH]; simpl.
  - reflexivity.
  - destruct (movesBefore placed pivot).
    + eapply perm_trans; [apply perm_skip, IH|apply perm_swap].
    + reflexivity.
Qed.

Lemma sortFrom_perm (items placedRev : list A) :
  Permutation (sortFrom placedRev items) (items ++ placedRev).
Proof.
  revert placedRev. induction items as [|x items IH]; intros placedRev; simpl.
  - reflexivity.
  - unfold ArraySort.sortFrom in *. simpl.
    eapply perm_trans; [apply IH|].
    eapply perm_trans; [apply Permutation_app_head, insertPivot_perm|].
    apply Permutation_sym, Permutation_middle.
Qed.

(** The sort returns the elements it was given. *)
Lemma sort_perm (items : list A) : Permutation (sort items) items.
Proof.
  unfold ArraySort.sort.
  eapply perm_trans; [apply Permutation_sym, Permutation_rev|].
  rewrite <- (app_nil_r items) at 2. apply sortFrom_perm.
Qed.

Lemma insertPivot_Forall (dom : A -> Prop) (pivot : A) (placedRev : list A) :
  dom pivot -> Forall dom placedRev -> Forall dom (insertPivot pivot placedRev).
Proof.
  intros Hpivot Hplaced.
  eapply Permutation_Forall; [apply Permutation_sym, insertPivot_perm|].
  now constructor.
Qed.

Section Ordered.

(** An order that every decision of the engine about two values of [dom]
    respects. *)
Variable dom : A -> Prop.
Variable R : A -> A -> Prop.
Hypothesis R_trans : forall a b c,
  dom a -> dom b -> dom c -> R a b -> R b c -> R a c.
Hypothesis stays : forall placed pivot, dom placed -> dom pivot ->
  movesBefore placed pivot = false -> R placed pivot.
Hypothesis moves : forall placed pivot, dom placed -> dom pivot ->
  movesBefore placed pivot = true -> R pivot placed.

Lemma insertPivot_sorted (pivot : A) (placedRev : list A) :
  dom pivot -> Forall dom placedRev ->
  StronglySorted (fun a b => R b a) placedRev ->
  StronglySorted (fun a b => R b a) (insertPivot pivot placedRev).
Proof.
  intros Hpivot Hdom Hs. revert Hdom.
  induction Hs as [|placed rest Hs IH Hp]; intros Hdom; simpl.
  - repeat constructor.
  - inversion Hdom as [|? ? Hplaced Hrest]; subst.
    destruct (movesBefore placed pivot) eqn:Hm.
    + constructor; [now apply IH|].
      eapply Permutation_Forall; [apply Permutation_sym, insertPivot_perm|].
      constructor; [now apply moves|assumption].
    + apply stays in Hm; [|assumption..].
      constructor; [now constructor|].
      constructor; [assumption|].
      rewrite Forall_forall in *. intros a Ha.
      apply (R_trans a placed pivot); auto.
Qed.

Lemma sortFrom_sorted (items placedRev : list A) :
  Forall dom items -> Forall dom placedRev ->
  StronglySorted (fun a b => R b a) placedRev ->
  StronglySorted (fun a b => R b a) (sortFrom placedRev items).
Proof.
  intros Hitems. revert placedRev.
  induction Hitems as [|x items Hx _ IH]; intros placedRev Hdom Hs.
  - exact Hs.
  - unfold ArraySort.sortFrom in *. simpl.
    apply IH; [now apply insertPivot_Forall|now apply insertPivot_sorted].
Qed.

(** The sorted array is in the order [R]. *)
Lemma sort_sorted (items : list A) :
  Forall dom items -> StronglySorted R (sort items).
Proof.
  intros Hitems.
  apply StronglySorted_rev, sortFrom_sorted; [assumption|constructor..].
Qed.

End Ordered.

Section Stable.

(** A class of values none of which the engine moves in front of another. *)
Variable dom : A -> Prop.
Variable p : A -> bool.
Hypothesis no_move : forall placed pivot, dom placed -> dom pivot ->
  p placed = true -> p pivot = true -> movesBefore placed pivot = false.

Lemma insertPivot_filter (pivot : A) (placedRev : list A) :
  dom pivot -> Forall dom placedRev ->
  filter p (insertPivot pivot placedRev) = filter p (pivot :: placedRev).
Proof.
  intros Hpivot. induction 1 as [|placed rest Hplaced _ IH].
  - reflexivity.
  - cbn [ArraySort.insertPivot].
    destruct (movesBefore placed pivot) eqn:Hm; [|reflexivity].
    cbn [filter] in *. rewrite IH.
    destruct (p pivot) eqn:Ep, (p placed) eqn:Eq; try reflexivity.
    rewrite (no_move _ _ Hplaced Hpivot Eq Ep) in Hm. discriminate.
Qed.

Lemma sortFrom_filter (items placedRev : list A) :
  Forall dom items -> Forall dom placedRev ->
  filter p (sortFrom placedRev items) =
  rev (filter p items) ++ filter p placedRev.
Proof.
  intros Hitems. revert placedRev.
  induction Hitems as [|x items Hx _ IH]; intros placedRev Hdom.
  - reflexivity.
  - unfold ArraySort.sortFrom in *. cbn [fold_left].
    rewrite IH by now apply insertPivot_Forall.
    rewrite insertPivot_filter by assumption. cbn [filter].
    destruct (p x); [|reflexivity].
    cbn [rev]. now rewrite <- app_assoc.
Qed.

(** The values of the class keep the order they were given in. *)
Lemma sort_stable (items : list A) :
  Forall dom items -> filter p (sort items) = filter p items.
Proof.
  intros Hitems. unfold ArraySort.sort.
  rewrite filter_rev, sortFrom_filter by (assumption || constructor).
  rewrite app_nil_r. apply rev_involutive.
Qed.

End Stable.

End SortFacts.

(* ------------------------------------------------------------------ *)
(** * Consistent comparison functions *)

Section Consistent.

Context {A : Type}.
Variable comparefn : A -> A -> Z.
Variable dom : A -> Prop.
Hypothesis Hc : ArraySort.consistent comparefn dom.

Lemma consistent_flip (a b : A) :
  dom a -> dom b -> (comparefn a b < 0 <-> comparefn b a > 0).
Proof.
  destruct Hc as (Hrefl & Hsym & _ & Hlt & Hgt). intros Ha Hb.
  pose proof (Hrefl a Ha) as Haa.
  split; intros H.
  - destruct (Z.lt_trichotomy (comparefn b a) 0) as [Hba|[Hba|Hba]]; [| |lia].
    + specialize (Hlt a b a Ha Hb Ha H Hba). lia.
    + specialize (Hsym b a Hb Ha Hba). lia.
  - destruct (Z.lt_trichotomy (comparefn a b) 0) as [Hab|[Hab|Hab]]; [lia| |].
    + specialize (Hsym a b Ha Hb Hab). lia.
    + specialize (Hgt a b a Ha Hb Ha (Z.lt_gt _ _ Hab) H). lia.
Qed.

Lemma consistent_le_trans (a b c : A) :
  dom a -> dom b -> dom c ->
  comparefn a b <= 0 -> comparefn b c <= 0 -> comparefn a c <= 0.
Proof.
  intros Ha Hb Hc' Hab Hbc.
  pose proof (consistent_flip a c Ha Hc') as Fac.
  pose proof (consistent_flip c a Hc' Ha) as Fca.
  pose proof (consistent_flip a b Ha Hb) as Fab.
  pose proof (consistent_flip b a Hb Ha) as Fba.
  pose proof (consistent_flip b c Hb Hc') as Fbc.
  pose proof (consistent_flip c b Hc' Hb) as Fcb.
  destruct Hc as (Hrefl & Hsym & Heq & Hlt & Hgt).
  destruct (Z.lt_trichotomy (comparefn a c) 0) as [H|[H|H]]; [lia|lia|].
  exfalso.
  assert (Hca : comparefn c a < 0) by (apply Fca; lia).
  destruct (Z.eq_dec (comparefn a b) 0) as [Eab|Nab],
           (Z.eq_dec (comparefn b c) 0) as [Ebc|Nbc].
  - specialize (Heq a b c Ha Hb Hc' Eab Ebc). lia.
  - assert (Hbc' : comparefn b c < 0) by lia.
    specialize (Hlt b c a Hb Hc' Ha Hbc' Hca).
    specialize (Hsym a b Ha Hb Eab). lia.
  - assert (Hab' : comparefn a b < 0) by lia.
    specialize (Hlt c a b Hc' Ha Hb Hca Hab').
    specialize (Hsym b c Hb Hc' Ebc). lia.
  - assert (Hab' : comparefn a b < 0) by lia.
    assert (Hbc' : comparefn b c < 0) by lia.
    specialize (Hlt a b c Ha Hb Hc' Hab' Hbc'). lia.
Qed.

(** On consistent answers the two engines take the same decision. *)
Lemma movesBefore_engines (placed pivot : A) :
  dom placed -> dom pivot ->
  ArraySort.movesBefore ArraySort.PivotFirst comparefn placed pivot =
  ArraySort.movesBefore ArraySort.PlacedFirst comparefn placed pivot.
Proof.
  intros Hplaced Hpivot. unfold ArraySort.movesBefore.
  pose proof (consistent_flip pivot placed Hpivot Hplaced) as F.
  destruct (Z.ltb_spec (comparefn pivot placed) 0),
           (Z.ltb_spec 0 (comparefn placed pivot)); try reflexivity; lia.
Qed.

Lemma insertPivot_engines (pivot : A) (placedRev : list A) :
  dom pivot -> Forall dom placedRev ->
  ArraySort.insertPivot ArraySort.PivotFirst comparefn pivot placedRev =
  ArraySort.insertPivot ArraySort.PlacedFirst comparefn pivot placedRev.
Proof.
  intros Hpivot.
  induction 1 as [|placed rest Hplaced _ IH]; cbn [ArraySort.insertPivot].
  - reflexivity.
  - now rewrite (movesBefore_engines placed pivot Hplaced Hpivot), IH.
Qed.

Lemma sortFrom_engines (items placedRev : list A) :
  Forall dom items -> Forall dom placedRev ->
  ArraySort.sortFrom ArraySort.PivotFirst comparefn placedRev items =
  ArraySort.sortFrom ArraySort.PlacedFirst comparefn placedRev items.
Proof.
  intros Hitems. revert placedRev.
  induction Hitems as [|x items Hx _ IH]; intros placedRev Hdom.
  - reflexivity.
  - unfold ArraySort.sortFrom in *. cbn [fold_left].
    rewrite <- (insertPivot_engines x placedRev Hx Hdom).
    apply IH. now apply insertPivot_Forall.
Qed.

(** What the language asks of a sort with a consistent comparison function:
    under either engine the result holds the given values, is in ascending
    order by the comparison function and keeps the given order of values
    that compare equal; the two engines return the same array. *)
Lemma sort_consistent (e : engine) (items : list A) :
  Forall dom items ->
  Permutation (ArraySort.sort e comparefn items) items /\
  StronglySorted (fun a b => comparefn a b <= 0) (ArraySort.sort e comparefn items) /\
  (forall a, dom a ->
     filter (fun x => comparefn a x =? 0) (ArraySort.sort e comparefn items) =
     filter (fun x => comparefn a x =? 0) items) /\
  ArraySort.sort ArraySort.PivotFirst comparefn items =
  ArraySort.sort ArraySort.PlacedFirst comparefn items.
Proof.
  intros Hitems. split; [apply sort_perm|]. split; [|split].
  - apply sort_sorted with (dom := dom); [| | |assumption].
    + apply consistent_le_trans.
    + intros placed pivot Hplaced Hpivot Hm.
      pose proof (consistent_flip pivot placed Hpivot Hplaced).
      unfold ArraySort.movesBefore in Hm. destruct e; lia.
    + intros placed pivot Hplaced Hpivot Hm.
      pose proof (consistent_flip pivot placed Hpivot Hplaced).
      unfold ArraySort.movesBefore in Hm. destruct e; lia.
  - intros a Ha. apply sort_stable with (dom := dom); [|assumption].
    intros placed pivot Hplaced Hpivot Hp Hq.
    apply Z.eqb_eq in Hp, Hq.
    pose proof (consistent_flip pivot placed Hpivot Hplaced).
    destruct Hc as (_ & Hsym & Heq & _ & _).
    assert (comparefn placed pivot = 0)
      by (apply (Heq placed a pivot); auto).
    assert (comparefn pivot placed = 0) by auto.
    unfold ArraySort.movesBefore. destruct e; lia.
  - unfold ArraySort.sort. f_equal. apply sortFrom_engines; [assumption|constructor].
Qed.

End Consistent.

(* ------------------------------------------------------------------ *)
(** * The comparison functions of the page *)

Section Comparators.

Variable e : engine.

Lemma compareFees_stays (placed pivot : Z) :
  ArraySort.movesBefore e compareFees placed pivot = false -> placed <= pivot.
Proof.
  unfold ArraySort.movesBefore, compareFees. destruct e; intros H; lia.
Qed.

Lemma compareFees_moves (placed pivot : Z) :
  ArraySort.movesBefore e compareFees placed pivot = true -> pivot <= placed.
Proof.
  unfold ArraySort.movesBefore, compareFees. destruct e; intros H; lia.
Qed.

Lemma feeOrder_trans (a b c : FirmRow) :
  feeOrder a b -> feeOrder b c -> feeOrder a c.
Proof.
  unfold feeOrder.
  destruct (Row.fee a), (Row.fee b), (Row.fee c); intros; try tauto; lia.
Qed.

Lemma compareRows_stays (placed pivot : FirmRow) :
  ArraySort.movesBefore e compareRows placed pivot = false -> feeOrder placed pivot.
Proof.
  unfold ArraySort.movesBefore, compareRows, feeOrder.
  destruct e, (Row.fee placed), (Row.fee pivot); intros H;
    try exact I; try lia; try discriminate.
Qed.

Lemma compareRows_moves (placed pivot : FirmRow) :
  ArraySort.movesBefore e compareRows placed pivot = true -> feeOrder pivot placed.
Proof.
  unfold ArraySort.movesBefore, compareRows, feeOrder.
  destruct e, (Row.fee placed), (Row.fee pivot); intros H;
    try exact I; try lia; try discriminate.
Qed.

(** Rows with the same present fee are never moved past each other. *)
Lemma compareRows_tie (f : Z) (placed pivot : FirmRow) :
  feeIs (Some f) placed = true -> feeIs (Some f) pivot = true ->
  ArraySort.movesBefore e compareRows placed pivot = false.
Proof.
  unfold feeIs, strictEqual, ArraySort.movesBefore, compareRows.
  destruct (Row.fee placed), (Row.fee pivot); try discriminate.
  intros H1 H2. apply Z.eqb_eq in H1, H2. subst. destruct e; lia.
Qed.

End Comparators.

(** An engine that passes the pivot first leaves rows without a fee in
    place. *)
Lemma compareRows_absent_PivotFirst (placed pivot : FirmRow) :
  feeIs None placed = true -> feeIs None pivot = true ->
  ArraySort.movesBefore ArraySort.PivotFirst compareRows placed pivot = false.
Proof.
  unfold feeIs, strictEqual, ArraySort.movesBefore, compareRows.
  destruct (Row.fee placed), (Row.fee pivot); try discriminate. reflexivity.
Qed.

(** An engine that passes the placed element first moves a row without a
    fee in front of any other row without a fee. *)
Lemma compareRows_absent_PlacedFirst (placed pivot : FirmRow) :
  feeIs None placed = true ->
  ArraySort.movesBefore ArraySort.PlacedFirst compareRows placed pivot = true.
Proof.
  unfold feeIs, strictEqual, ArraySort.movesBefore, compareRows.
  destruct (Row.fee placed); try discriminate. reflexivity.
Qed.

(** The comparison function of the fees is consistent on all numbers. *)
Lemma compareFees_consistent : ArraySort.consistent compareFees (fun _ => True).
Proof. unfold ArraySort.consistent, compareFees. repeat split; intros; lia. Qed.

(** The comparison function of the table is consistent on rows with a
    fee. *)
Lemma compareRows_consistent_present :
  ArraySort.consistent compareRows (fun row => Row.fee row <> None).
Proof.
  unfold ArraySort.consistent, compareRows.
  repeat split; intros;
    repeat match goal with
      | H : Row.fee ?r <> None |- _ =>
          destruct (Row.fee r); [clear H|contradiction]
      end; lia.
Qed.

(** It is not consistent on rows that include one without a fee: compared
    with itself such a row is "greater". *)
Lemma compareRows_not_consistent (dom : FirmRow -> Prop) (row : FirmRow) :
  dom row -> Row.fee row = None -> ~ ArraySort.consistent compareRows dom.
Proof.
  intros Hdom Hfee (Hrefl & _). specialize (Hrefl row Hdom).
  unfold compareRows in Hrefl. rewrite Hfee in Hrefl. discriminate.
Qed.

(* ------------------------------------------------------------------ *)
(** * The row projection *)

Lemma findAccount_Some (firm : PropFirm) (S : Z) (account : Tier.t) :
  findAccount firm S = Some account ->
  In account (Firm.accounts firm) /\ Tier.size account = S.
Proof.
  unfold findAccount. intros H. apply find_some in H as [Hin Heq].
  split; [assumption|]. now apply Z.eqb_eq.
Qed.

Lemma findAccount_hasTier (firm : PropFirm) (S : Z) :
  findAccount firm S <> None <-> hasTier firm S.
Proof.
  unfold hasTier. split.
  - destruct (findAccount firm S) as [account|] eqn:H; [|congruence].
    intros _. exists account. now apply findAccount_Some.
  - intros (account & Hin & Hsize) H. unfold findAccount in H.
    apply (find_none _ _ H) in Hin. simpl in Hin. lia.
Qed.

Lemma toFirmRow_firm (S : Z) (firm : PropFirm) : Row.firm (toFirmRow S firm) = firm.
Proof. unfold toFirmRow. now destruct (findAccount firm S). Qed.

Lemma toFirmRow_accountSize (S : Z) (firm : PropFirm) :
  Row.accountSize (toFirmRow S firm) = S.
Proof. unfold toFirmRow. now destruct (findAccount firm S). Qed.

Lemma toFirmRow_fee (S : Z) (firm : PropFirm) :
  Row.fee (toFirmRow S firm) = option_map Tier.fee (findAccount firm S).
Proof. unfold toFirmRow. now destruct (findAccount firm S). Qed.

Lemma toFirmRows_nth (propFirms : list PropFirm) (S : Z) (i : nat) :
  nth_error (toFirmRows propFirms S) i =
  option_map (toFirmRow S) (nth_error propFirms i).
Proof. unfold toFirmRows. apply nth_error_map. Qed.

(** What a row holds, by whether the firm has a tier of the selected size. *)
Lemma toFirmRow_fields (S : Z) (firm : PropFirm) :
  (Row.fee (toFirmRow S firm) <> None <-> hasTier firm S) /\
  (Row.feePer10k (toFirmRow S firm) <> None <-> hasTier firm S) /\
  (descriptivePresent (toFirmRow S firm) <-> hasTier firm S) /\
  (~ hasTier firm S ->
   Row.fee (toFirmRow S firm) = None /\
   Row.feePer10k (toFirmRow S firm) = None /\
   descriptiveAbsent (toFirmRow S firm)).
Proof.
  rewrite <- findAccount_hasTier.
  unfold toFirmRow, descriptivePresent, descriptiveAbsent.
  destruct (findAccount firm S) as [account|]; simpl.
  - repeat split; intros; try congruence;
      match goal with H : ~ _ |- _ => exfalso; apply H; congruence end.
  - repeat split; intros; try congruence; tauto.
Qed.

(** C1. For every selected size the projection returns one row per firm, in
    catalog order: the row at a position belongs to the firm at that position
    and carries the selected size.  Its fee, its fee per 10k and its
    descriptive fields are present exactly when the firm has a tier of the
    selected size; without such a tier they are all absent. *)
Theorem toFirmRows_one_row_per_firm (propFirms : list PropFirm) (S : Z) :
  length (toFirmRows propFirms S) = length propFirms /\
  map Row.firm (toFirmRows propFirms S) = propFirms /\
  forall i firm, nth_error propFirms i = Some firm ->
    exists row,
      nth_error (toFirmRows propFirms S) i = Some row /\
      Row.firm row = firm /\
      Row.accountSize row = S /\
      (Row.fee row <> None <-> hasTier firm S) /\
      (Row.feePer10k row <> None <-> hasTier firm S) /\
      (descriptivePresent row <-> hasTier firm S) /\
      (~ hasTier firm S ->
       Row.fee row = None /\ Row.feePer10k row = None /\ descriptiveAbsent row).
Proof.
  split; [apply length_map|]. split.
  - unfold toFirmRows. rewrite map_map.
    rewrite (map_ext _ (fun firm => firm)) by apply toFirmRow_firm.
    apply map_id.
  - intros i firm Hi. exists (toFirmRow S firm).
    rewrite toFirmRows_nth, Hi. split; [reflexivity|].
    split; [apply toFirmRow_firm|]. split; [apply toFirmRow_accountSize|].
    apply toFirmRow_fields.
Qed.

(** C6. For every selected size and every firm with a matching tier, the
    fee per 10k of the firm's row is [fee / S * 10000], where [fee] is the
    fee of the matched tier and [S] the selected size: the binary64 quotient
    of the two, multiplied in binary64 by 10000. *)
Theorem feePer10k_of_matched_tier
  (propFirms : list PropFirm) (S : Z) (i : nat) (firm : PropFirm) (account : Tier.t) :
  nth_error propFirms i = Some firm ->
  findAccount firm S = Some account ->
  exists row,
    nth_error (toFirmRows propFirms S) i = Some row /\
    Row.fee row = Some (Tier.fee account) /\
    Row.feePer10k row =
      Some (JsNumber.mulZ (JsNumber.div (Tier.fee account) S) 10000).
Proof.
  intros Hi Hfind. exists (toFirmRow S firm).
  rewrite toFirmRows_nth, Hi. split; [reflexivity|].
  destruct (findAccount_Some _ _ _ Hfind) as [_ Hsize].
  unfold toFirmRow. rewrite Hfind. cbn [Row.fee Row.feePer10k].
  rewrite Hsize. split; reflexivity.
Qed.

(** A fee of 3 at the size 5000: the fee per 10k is the double just below 6
    that the two roundings leave. *)
Lemma feePer10k_of_matched_tier_witness :
  exists row,
    nth_error (toFirmRows [firmNamed "A" [tier25k; tier5kFee3]] 5000) 0 = Some row /\
    Row.fee row = Some 3 /\
    Row.feePer10k row =
      Some (SpecFloat.S754_finite false 6755399441055743 (-50)).
Proof.
  exact (feePer10k_of_matched_tier
           [firmNamed "A" [tier25k; tier5kFee3]] 5000 0
           (firmNamed "A" [tier25k; tier5kFee3]) tier5kFee3 eq_refl eq_refl).
Defined.

(** The arithmetic of the fee per 10k on sample amounts: 3 at 5000 and 99 at
    10000 are rounded away from 6 and 99, 100 at 10000 is exact, and a size
    of zero gives an infinity or NaN. *)
Example feePer10k_samples :
  JsNumber.mulZ (JsNumber.div 3 5000) 10000 =
    SpecFloat.S754_finite false 6755399441055743 (-50) /\
  JsNumber.ofZ 6 = SpecFloat.S754_finite false 6755399441055744 (-50) /\
  JsNumber.mulZ (JsNumber.div 99 10000) 10000 =
    SpecFloat.S754_finite false 6966505673588737 (-46) /\
  JsNumber.ofZ 99 = SpecFloat.S754_finite false 6966505673588736 (-46) /\
  JsNumber.mulZ (JsNumber.div 100 10000) 10000 = JsNumber.ofZ 100 /\
  JsNumber.mulZ (JsNumber.div 5 0) 10000 = SpecFloat.S754_infinity false /\
  JsNumber.mulZ (JsNumber.div (-5) 0) 10000 = SpecFloat.S754_infinity true /\
  JsNumber.mulZ (JsNumber.div 0 0) 10000 = SpecFloat.S754_nan.
Proof. repeat split; vm_compute; reflexivity. Qed.

(* ------------------------------------------------------------------ *)
(** * The fees that are present *)

Lemma filter_map_feesOf (rs : list FirmRow) :
  map feeAsNumber (filter feeNotNull rs) = feesOf rs.
Proof.
  induction rs as [|row rs IH]; [reflexivity|].
  cbn [filter feesOf]. unfold feeNotNull at 1.
  destruct (Row.fee row) eqn:Hfee; [|exact IH].
  cbn [map]. unfold feeAsNumber at 1. rewrite Hfee. now f_equal.
Qed.

Lemma In_feesOf (rs : list FirmRow) (f : Z) :
  In f (feesOf rs) <-> exists row, In row rs /\ Row.fee row = Some f.
Proof.
  induction rs as [|row rs IH]; simpl.
  - split; [contradiction|]. now intros (? & [] & _).
  - destruct (Row.fee row) as [g|] eqn:Hfee; simpl; rewrite IH; split.
    + intros [<-|(r & Hr & Hf)]; [now exists row; auto|exists r; auto].
    + intros (r & [<-|Hr] & Hf); [left; congruence|right; now exists r].
    + intros (r & Hr & Hf). exists r; auto.
    + intros (r & [<-|Hr] & Hf); [congruence|now exists r].
Qed.

Lemma feesOf_nil (rs : list FirmRow) :
  feesOf rs = [] <-> forall row, In row rs -> Row.fee row = None.
Proof.
  split.
  - intros H row Hin. destruct (Row.fee row) as [f|] eqn:Hfee; [|reflexivity].
    assert (Hf : In f (feesOf rs)) by (apply In_feesOf; now exists row).
    rewrite H in Hf. contradiction.
  - intros H. destruct (feesOf rs) as [|f fs] eqn:E; [reflexivity|].
    assert (Hf : In f (feesOf rs)) by (rewrite E; now left).
    apply In_feesOf in Hf as (row & Hin & Hfee). rewrite (H _ Hin) in Hfee.
    discriminate.
Qed.


(* ------------------------------------------------------------------ *)
(** * The highlight values *)

Section Highlights.

Variable e : engine.
Variable propFirms : list PropFirm.
Variable S : Z.

Local Abbreviation theRows := (rows propFirms S).
Local Abbreviation sortedFees := (available e propFirms S).
Local Abbreviation cheapest := (cheapestFee e propFirms S).
Local Abbreviation nextBest := (nextBestFee e propFirms S).
Local Abbreviation flagged := (isCheapest e propFirms S).

Lemma available_perm : Permutation sortedFees (feesOf theRows).
Proof.
  unfold available, presentFees. rewrite filter_map_feesOf.
  apply sort_perm.
Qed.

Lemma available_sorted : StronglySorted Z.le sortedFees.
Proof.
  apply sort_sorted with (dom := fun _ => True); [| | |apply Forall_True].
  - intros a b c _ _ _. apply Z.le_trans.
  - intros placed pivot _ _. apply compareFees_stays.
  - intros placed pivot _ _. apply compareFees_moves.
Qed.

(** The sorted fees are the ascending arrangement of the present fees. *)
Lemma available_ascending (asc : list Z) :
  StronglySorted Z.le asc -> Permutation asc (feesOf theRows) -> sortedFees = asc.
Proof.
  intros Hs Hp. apply ascending_unique; [apply available_sorted|assumption|].
  eapply perm_trans; [apply available_perm|apply Permutation_sym, Hp].
Qed.

Lemma cheapestFee_minimum (m : Z) :
  cheapest = Some m <-> minimumFee theRows m.
Proof.
  unfold cheapestFee, minimumFee.
  pose proof available_perm as Hp. pose proof available_sorted as Hs.
  destruct sortedFees as [|h rest] eqn:Ha; simpl.
  - split; [discriminate|]. intros [(row & Hin & Hfee) _].
    apply Permutation_nil in Hp.
    assert (In m (feesOf theRows)) as Hm by (apply In_feesOf; now exists row).
    rewrite Hp in Hm. contradiction.
  - inversion Hs as [|? ? _ Hh]; subst. rewrite Forall_forall in Hh.
    assert (Hmin : forall f, In f (feesOf theRows) -> h <= f).
    { intros f Hf. apply (Permutation_in _ (Permutation_sym Hp)) in Hf.
      destruct Hf as [<-|Hf]; [lia|now apply Hh]. }
    assert (Hhin : In h (feesOf theRows))
      by (apply (Permutation_in _ Hp); now left).
    split.
    + intros [= <-]. split; [now apply In_feesOf|].
      intros row f Hin Hfee. apply Hmin, In_feesOf. now exists row.
    + intros [(row & Hin & Hfee) Hle]. f_equal.
      apply In_feesOf in Hhin as (row' & Hin' & Hfee').
      specialize (Hle _ _ Hin' Hfee').
      assert (h <= m) by (apply Hmin, In_feesOf; now exists row). lia.
Qed.

Lemma cheapestFee_None :
  cheapest = None <-> forall row, In row theRows -> Row.fee row = None.
Proof.
  rewrite <- feesOf_nil. unfold cheapestFee.
  pose proof available_perm as Hp. split.
  - destruct sortedFees; [|discriminate]. intros _. now apply Permutation_nil.
  - intros H. rewrite H in Hp. apply Permutation_sym, Permutation_nil in Hp.
    now rewrite Hp.
Qed.

Lemma nextBestFee_None :
  nextBest = None <-> (length (filter feeNotNull theRows) < 2)%nat.
Proof.
  unfold nextBestFee. rewrite nth_error_None.
  rewrite (Permutation_length available_perm), <- filter_map_feesOf, length_map.
  lia.
Qed.

Lemma isCheapest_true (row : FirmRow) :
  flagged row = true <->
  exists f, Row.fee row = Some f /\ cheapest = Some f.
Proof.
  unfold isCheapest, notNull, strictEqual.
  destruct cheapest as [c|], (Row.fee row) as [f|]; simpl; split;
    try discriminate; try (intros (? & ? & ?); discriminate).
  - intros H. apply Z.eqb_eq in H. subst. now exists c.
  - intros (g & [= ->] & [= ->]). apply Z.eqb_refl.
Qed.

End Highlights.

(** C2. For every selection, [cheapestFee] is the least of the fees that are
    present among the projected rows and is absent exactly when no row has a
    fee; the sorted fees are the ascending arrangement of the present fees,
    [cheapestFee] is its element at index 0 and [nextBestFee] its element at
    index 1, absent exactly when fewer than two rows have a fee. *)
Theorem cheapestFee_and_nextBestFee (e : engine) (propFirms : list PropFirm) (S : Z) :
  (forall m, cheapestFee e propFirms S = Some m <-> minimumFee (rows propFirms S) m) /\
  (cheapestFee e propFirms S = None <->
   forall row, In row (rows propFirms S) -> Row.fee row = None) /\
  (StronglySorted Z.le (available e propFirms S) /\
   Permutation (available e propFirms S) (feesOf (rows propFirms S))) /\
  (forall asc,
     StronglySorted Z.le asc -> Permutation asc (feesOf (rows propFirms S)) ->
     cheapestFee e propFirms S = nth_error asc 0 /\
     nextBestFee e propFirms S = nth_error asc 1) /\
  (nextBestFee e propFirms S = None <->
   (length (filter feeNotNull (rows propFirms S)) < 2)%nat).
Proof.
  split; [intros m; apply cheapestFee_minimum|].
  split; [apply cheapestFee_None|].
  split; [split; [apply available_sorted|apply available_perm]|].
  split; [|apply nextBestFee_None].
  intros asc Hs Hp. unfold cheapestFee, nextBestFee.
  now rewrite (available_ascending e propFirms S asc Hs Hp).
Qed.

(** C3. For every selection, a row is flagged "Cheapest" exactly when its fee
    is present and equals [cheapestFee], that is, when its fee is the least
    fee present for the selection: every row that ties at that fee is
    flagged, the badge of the rendered row is that flag, and no row is
    flagged when no row has a fee. *)
Theorem cheapest_flag (e : engine) (propFirms : list PropFirm) (S : Z) :
  (forall row, isCheapest e propFirms S row = true <->
     exists f, Row.fee row = Some f /\ cheapestFee e propFirms S = Some f) /\
  (forall row, isCheapest e propFirms S row = true <->
     exists f, Row.fee row = Some f /\ minimumFee (rows propFirms S) f) /\
  (forall m row, minimumFee (rows propFirms S) m -> Row.fee row = Some m ->
     isCheapest e propFirms S row = true) /\
  ((forall row, In row (rows propFirms S) -> Row.fee row = None) ->
   forall row, isCheapest e propFirms S row = false) /\
  (forall row, cheapestBadge (renderRow e propFirms S row) =
               isCheapest e propFirms S row).
Proof.
  assert (Hmin : forall row, isCheapest e propFirms S row = true <->
     exists f, Row.fee row = Some f /\ minimumFee (rows propFirms S) f).
  { intros row. rewrite isCheapest_true.
    split; intros (f & Hf & Hc); exists f; (split; [assumption|]).
    - now apply (proj1 (cheapestFee_minimum e propFirms S f)).
    - now apply (proj2 (cheapestFee_minimum e propFirms S f)). }
  split; [intros row; apply isCheapest_true|].
  split; [exact Hmin|]. split; [|split].
  - intros m row Hm Hfee. apply Hmin. now exists m.
  - intros Hnone row. apply cheapestFee_None with (e := e) in Hnone.
    unfold isCheapest. now rewrite Hnone.
  - reflexivity.
Qed.

(* ------------------------------------------------------------------ *)
(** * A class that every pivot overtakes *)

Section Overtaken.

Context {A : Type}.
Variable e : engine.
Variable comparefn : A -> A -> Z.
Variable p : A -> bool.

Local Abbreviation movesBefore := (ArraySort.movesBefore e comparefn).
Local Abbreviation insertPivot := (ArraySort.insertPivot e comparefn).
Local Abbreviation sortFrom := (ArraySort.sortFrom e comparefn).
Local Abbreviation classFirst := (classFirst p).

(** Every pivot moves in front of a placed element of the class, and a
    pivot of the class moves in front of nothing else. *)
Hypothesis overtaken : forall placed pivot,
  p placed = true -> movesBefore placed pivot = true.
Hypothesis stops : forall placed pivot,
  p placed = false -> p pivot = true -> movesBefore placed pivot = false.

Lemma insertPivot_passes_class (pivot : A) (inClass others : list A) :
  Forall (fun a => p a = true) inClass ->
  insertPivot pivot (inClass ++ others) = inClass ++ insertPivot pivot others.
Proof.
  induction 1 as [|a inClass Ha _ IH]; simpl; [reflexivity|].
  now rewrite (overtaken a pivot Ha), IH.
Qed.

Lemma insertPivot_classFirst (pivot : A) (placedRev : list A) :
  classFirst placedRev ->
  classFirst (insertPivot pivot placedRev) /\
  filter p (insertPivot pivot placedRev) = filter p placedRev ++ filter p [pivot].
Proof.
  intros (inClass & others & -> & Hin & Hout).
  rewrite (insertPivot_passes_class _ _ _ Hin).
  assert (Hfo : filter p others = []).
  { clear -Hout. induction Hout as [|a l Ha _ IH]; simpl; [reflexivity|].
    now rewrite Ha. }
  assert (Hfi : filter p inClass = inClass).
  { clear -Hin. induction Hin as [|a l Ha _ IH]; simpl; [reflexivity|].
    now rewrite Ha, IH. }
  destruct (p pivot) eqn:Hp.
  - assert (Hstop : insertPivot pivot others = pivot :: others).
    { destruct Hout as [|a l Ha _]; simpl; [reflexivity|].
      now rewrite (stops a pivot Ha Hp). }
    rewrite Hstop. split.
    + exists (inClass ++ [pivot]), others. rewrite <- app_assoc. simpl.
      split; [reflexivity|]. split; [|assumption].
      apply Forall_app. split; [assumption|]. now repeat constructor.
    + rewrite !filter_app. simpl. rewrite Hp, Hfo, Hfi. now rewrite app_nil_r.
  - split.
    + exists inClass, (insertPivot pivot others).
      split; [reflexivity|]. split; [assumption|].
      eapply Permutation_Forall; [apply Permutation_sym, insertPivot_perm|].
      now constructor.
    + rewrite !filter_app. simpl. rewrite Hp, app_nil_r. f_equal.
      rewrite Hfo.
      assert (Hall : Forall (fun a => p a = false) (insertPivot pivot others)).
      { eapply Permutation_Forall; [apply Permutation_sym, insertPivot_perm|].
        now constructor. }
      clear -Hall. induction Hall as [|a l Ha _ IH]; simpl; [reflexivity|].
      now rewrite Ha.
Qed.

Lemma sortFrom_classFirst (items placedRev : list A) :
  classFirst placedRev ->
  filter p (sortFrom placedRev items) = filter p placedRev ++ filter p items.
Proof.
  revert placedRev. induction items as [|x items IH]; intros placedRev H.
  - simpl. now rewrite app_nil_r.
  - unfold ArraySort.sortFrom in *. cbn [fold_left].
    destruct (insertPivot_classFirst x placedRev H) as [H' Hf].
    rewrite (IH _ H'), Hf, <- app_assoc. f_equal.
    simpl. now destruct (p x).
Qed.

(** The elements of the class come out in the reverse of the order they
    were given in. *)
Lemma sort_reverses_class (items : list A) :
  filter p (ArraySort.sort e comparefn items) = rev (filter p items).
Proof.
  unfold ArraySort.sort. rewrite filter_rev, sortFrom_classFirst; [reflexivity|].
  exists [], []. repeat constructor.
Qed.

End Overtaken.

(* ------------------------------------------------------------------ *)
(** * The order of the table *)

Section TableOrder.

Variable e : engine.
Variable propFirms : list PropFirm.
Variable S : Z.

Lemma tableRows_perm : Permutation (tableRows e propFirms S) (rows propFirms S).
Proof. apply sort_perm. Qed.

Lemma tableRows_sorted : StronglySorted feeOrder (tableRows e propFirms S).
Proof.
  apply sort_sorted with (dom := fun _ => True); [| | |apply Forall_True].
  - intros a b c _ _ _. apply feeOrder_trans.
  - intros placed pivot _ _. apply compareRows_stays.
  - intros placed pivot _ _. apply compareRows_moves.
Qed.

(** Rows that tie at a present fee keep their catalog order. *)
Lemma tableRows_present_ties (f : Z) :
  filter (feeIs (Some f)) (tableRows e propFirms S) =
  filter (feeIs (Some f)) (rows propFirms S).
Proof.
  apply sort_stable with (dom := fun _ => True); [|apply Forall_True].
  intros placed pivot _ _. apply compareRows_tie.
Qed.

End TableOrder.

(** In the sort model with the pivot passed first, the rows without a fee
    keep their catalog order. *)
Lemma tableRows_absent_PivotFirst (propFirms : list PropFirm) (S : Z) :
  filter (feeIs None) (tableRows ArraySort.PivotFirst propFirms S) =
  filter (feeIs None) (rows propFirms S).
Proof.
  apply sort_stable with (dom := fun _ => True); [|apply Forall_True].
  intros placed pivot _ _. apply compareRows_absent_PivotFirst.
Qed.

(** In the sort model with the placed element passed first, the rows without
    a fee come out in the reverse of their catalog order. *)
Lemma tableRows_absent_PlacedFirst (propFirms : list PropFirm) (S : Z) :
  filter (feeIs None) (tableRows ArraySort.PlacedFirst propFirms S) =
  rev (filter (feeIs None) (rows propFirms S)).
Proof.
  apply sort_reverses_class.
  - intros placed pivot. apply compareRows_absent_PlacedFirst.
  - intros placed pivot Hplaced Hpivot.
    unfold feeIs, strictEqual, ArraySort.movesBefore, compareRows in *.
    destruct (Row.fee placed), (Row.fee pivot); try discriminate. reflexivity.
Qed.

(** C4. The table shows the projected rows, each once; of two rows of the
    table, the one shown first has the smaller or equal fee when both fees
    are present, and a row without a fee is followed only by rows without
    a fee. *)
Theorem table_ascending_absent_last (e : engine) (propFirms : list PropFirm) (S : Z) :
  Permutation (tableRows e propFirms S) (rows propFirms S) /\
  forall i j a b, (i < j)%nat ->
    nth_error (tableRows e propFirms S) i = Some a ->
    nth_error (tableRows e propFirms S) j = Some b ->
    (forall fa fb, Row.fee a = Some fa -> Row.fee b = Some fb -> fa <= fb) /\
    (Row.fee a = None -> Row.fee b = None).
Proof.
  split; [apply tableRows_perm|].
  intros i j a b Hij Hi Hj.
  pose proof (StronglySorted_nth _ _ (tableRows_sorted e propFirms S)
                _ _ _ _ Hij Hi Hj) as H.
  unfold feeOrder in H. split.
  - intros fa fb Ha Hb. now rewrite Ha, Hb in H.
  - intros Ha. rewrite Ha in H. now destruct (Row.fee b).
Qed.

(** X3. Two rows that tie at a present fee are shown in their catalog order,
    whichever way the engine calls the comparison function. *)
Lemma present_ties_in_catalog_order
  (e : engine) (propFirms : list PropFirm) (S : Z)
  (f : Z) (l1 l2 l3 : list FirmRow) (a b : FirmRow) :
  rows propFirms S = l1 ++ a :: l2 ++ b :: l3 ->
  Row.fee a = Some f -> Row.fee b = Some f ->
  exists m1 m2 m3, tableRows e propFirms S = m1 ++ a :: m2 ++ b :: m3.
Proof.
  intros Hrows Ha Hb.
  pose proof (tableRows_present_ties e propFirms S f) as H.
  rewrite Hrows in H. rewrite !filter_app in H. cbn [filter] in H.
  rewrite filter_app in H. cbn [filter] in H.
  unfold feeIs at 3 5 in H. rewrite Ha, Hb in H.
  cbn [strictEqual] in H. rewrite Z.eqb_refl in H.
  eapply filter_keeps_order. exact H.
Qed.

(** C5, on a catalog of two firms without a tier of the selected size: the
    comparison function answers 1 for the two rows in either order, so the
    order of the two rows is the engine's choice; one engine keeps the
    catalog order and the other one reverses it. *)
Theorem absent_ties_depend_on_engine :
  map Row.fee (rows [firmNamed "C" []; firmNamed "D" [tier25k]] 10000) = [None; None] /\
  compareRows (toFirmRow 10000 (firmNamed "C" []))
              (toFirmRow 10000 (firmNamed "D" [tier25k])) = 1 /\
  compareRows (toFirmRow 10000 (firmNamed "D" [tier25k]))
              (toFirmRow 10000 (firmNamed "C" [])) = 1 /\
  map key (tableBody ArraySort.PivotFirst
             [firmNamed "C" []; firmNamed "D" [tier25k]] 10000) = ["C"; "D"]%string /\
  map key (tableBody ArraySort.PlacedFirst
             [firmNamed "C" []; firmNamed "D" [tier25k]] 10000) = ["D"; "C"]%string.
Proof. repeat split. Qed.

(* ------------------------------------------------------------------ *)
(** * Ties at the minimum *)





(* ------------------------------------------------------------------ *)
(** * The savings annotation *)

(** C8. For every row flagged cheapest the savings annotation shows
    [max(0, nextBestFee - fee)], and it is omitted whenever [nextBestFee] is
    absent. *)
Theorem savings_annotation
  (e : engine) (propFirms : list PropFirm) (S : Z) (row : FirmRow) :
  isCheapest e propFirms S row = true ->
  match nextBestFee e propFirms S with
  | Some nb =>
      exists f,
        Row.fee row = Some f /\
        savingsAmount e propFirms S row = Some (Z.max 0 (nb - f)) /\
        savings (renderRow e propFirms S row) =
          Some ("Save $" ++ toFixed0 (Z.max 0 (nb - f)) ++ " vs. next option")%string
  | None =>
      savingsAmount e propFirms S row = None /\
      savings (renderRow e propFirms S row) = None
  end.
Proof.
  intros Hc. pose proof Hc as Hfee.
  apply isCheapest_true in Hfee as (f & Hfee & _).
  unfold renderRow, savingsNote, savingsAmount. cbn [savings].
  rewrite Hc, Hfee.
  destruct (nextBestFee e propFirms S) as [nb|]; [|split; reflexivity].
  exists f. repeat split.
Qed.

Lemma savings_annotation_witness :
  exists f,
    Row.fee (toFirmRow 10000 (firmNamed "A" [tier100])) = Some f /\
    savingsAmount ArraySort.PivotFirst
      [firmNamed "B" [tier150]; firmNamed "A" [tier100]; firmNamed "C" []] 10000
      (toFirmRow 10000 (firmNamed "A" [tier100])) = Some (Z.max 0 (150 - f)) /\
    savings (renderRow ArraySort.PivotFirst
      [firmNamed "B" [tier150]; firmNamed "A" [tier100]; firmNamed "C" []] 10000
      (toFirmRow 10000 (firmNamed "A" [tier100]))) =
      Some ("Save $" ++ toFixed0 (Z.max 0 (150 - f)) ++ " vs. next option")%string.
Proof.
  apply (savings_annotation ArraySort.PivotFirst
           [firmNamed "B" [tier150]; firmNamed "A" [tier100]; firmNamed "C" []] 10000
           (toFirmRow 10000 (firmNamed "A" [tier100]))).
  reflexivity.
Defined.

(** No annotation without a second fee, and none on a row that is not
    flagged. *)
Lemma savings_omitted
  (e : engine) (propFirms : list PropFirm) (S : Z) (row : FirmRow) :
  nextBestFee e propFirms S = None \/ isCheapest e propFirms S row = false ->
  savings (renderRow e propFirms S row) = None.
Proof.
  unfold renderRow, savingsNote, savingsAmount. cbn [savings].
  intros [->| ->]; [|reflexivity].
  now destruct (isCheapest e propFirms S row), (Row.fee row).
Qed.

(** The difference shown for a flagged row is never negative, so the
    annotation is [nextBestFee - fee] itself. *)
Lemma savings_not_clamped
  (e : engine) (propFirms : list PropFirm) (S : Z) (row : FirmRow) (f nb : Z) :
  isCheapest e propFirms S row = true ->
  Row.fee row = Some f -> nextBestFee e propFirms S = Some nb ->
  savingsAmount e propFirms S row = Some (nb - f).
Proof.
  intros Hc Hfee Hnb. unfold savingsAmount. rewrite Hc, Hfee, Hnb. f_equal.
  apply isCheapest_true in Hc as (g & Hg & Hcheap).
  assert (g = f) by congruence. subst g.
  pose proof (available_sorted e propFirms S) as Hs.
  unfold cheapestFee in Hcheap. unfold nextBestFee in Hnb.
  apply Z.max_r.
  assert (f <= nb); [|lia].
  apply (StronglySorted_nth _ _ Hs 0%nat 1%nat); [lia|assumption..].
Qed.

(* ------------------------------------------------------------------ *)
(** * The initial selection *)

(** C9, as the page does it.  A fresh page selects the constant 10000,
    whatever the catalog: its first table is the projection for 10000; that
    size is the smallest supported size only if no supported size is below
    10000, and a most common tier size only if some firm has a tier of
    10000. *)
Theorem initial_selection_is_constant :
  initialSelectedSize = 10000 /\
  (forall e propFirms,
     tableRows e propFirms initialSelectedSize =
     ArraySort.sort e compareRows (toFirmRows propFirms 10000)) /\
  (forall accountSizes,
     smallestSize accountSizes initialSelectedSize ->
     In 10000 accountSizes /\ Forall (fun s => 10000 <= s) accountSizes) /\
  (forall propFirms,
     mostCommonTierSize propFirms initialSelectedSize ->
     exists firm, In firm propFirms /\ hasTier firm 10000).
Proof.
  split; [reflexivity|]. split; [reflexivity|]. split.
  - intros accountSizes [Hin Hle]. split; [exact Hin|].
    apply Forall_forall. exact Hle.
  - intros propFirms [Hin _]. unfold tierSizes in Hin.
    apply in_flat_map in Hin as (firm & Hfirm & Hsize).
    apply in_map_iff in Hsize as (account & Hs & Ha).
    exists firm. split; [assumption|]. now exists account.
Qed.

(** C9, as stated, fails: with the supported sizes 5000, 10000, 25000, 50000
    and 100000 and a catalog whose most common tier size is 5000, the initial
    selection 10000 is neither the smallest supported size nor the most
    common tier size. *)
Lemma initial_selection_counterexample :
  ~ (smallestSize [5000; 10000; 25000; 50000; 100000] initialSelectedSize \/
     mostCommonTierSize
       [firmNamed "A" [tier5k; tier100]; firmNamed "B" [tier5k; tier25k]]
       initialSelectedSize).
Proof.
  intros [[_ Hle]|[_ Hmost]].
  - specialize (Hle 5000 (or_introl eq_refl)). unfold initialSelectedSize in Hle. lia.
  - specialize (Hmost 5000). vm_compute in Hmost. lia.
Qed.

(* ------------------------------------------------------------------ *)
(** * A fee of zero *)

Lemma rows_fee_inv (propFirms : list PropFirm) (S : Z) (row : FirmRow) (f : Z) :
  In row (rows propFirms S) -> Row.fee row = Some f ->
  exists firm account,
    In firm propFirms /\ In account (Firm.accounts firm) /\ Tier.fee account = f.
Proof.
  unfold rows, toFirmRows. intros Hin Hfee.
  apply in_map_iff in Hin as (firm & <- & Hfirm).
  rewrite toFirmRow_fee in Hfee.
  destruct (findAccount firm S) as [account|] eqn:Hfind; [|discriminate].
  injection Hfee as <-. exists firm, account.
  split; [assumption|]. split; [|reflexivity].
  now apply findAccount_Some in Hfind.
Qed.

(** C10. In a catalog whose fees are not negative, a matched tier whose fee
    is 0 gives a present fee: [cheapestFee] is 0 (not absent), the firm's row
    is flagged cheapest and its fee cell reads "$0"; a row without a fee is
    not flagged and its fee cell is the placeholder glyph, which differs
    from "$0". *)
Theorem zero_fee_is_present
  (e : engine) (propFirms : list PropFirm) (S : Z)
  (firm : PropFirm) (account : Tier.t) :
  (forall firm' account', In firm' propFirms ->
     In account' (Firm.accounts firm') -> 0 <= Tier.fee account') ->
  In firm propFirms ->
  findAccount firm S = Some account ->
  Tier.fee account = 0 ->
  In (toFirmRow S firm) (rows propFirms S) /\
  Row.fee (toFirmRow S firm) = Some 0 /\
  cheapestFee e propFirms S = Some 0 /\
  isCheapest e propFirms S (toFirmRow S firm) = true /\
  cheapestBadge (renderRow e propFirms S (toFirmRow S firm)) = true /\
  upfrontFee (renderRow e propFirms S (toFirmRow S firm)) = "$0"%string /\
  (forall row, Row.fee row = None ->
     cheapestBadge (renderRow e propFirms S row) = false /\
     upfrontFee (renderRow e propFirms S row) = placeholder) /\
  placeholder <> "$0"%string.
Proof.
  intros Hnonneg Hfirm Hfind Hzero.
  assert (Hin : In (toFirmRow S firm) (rows propFirms S))
    by (unfold rows, toFirmRows; now apply in_map).
  assert (Hfee : Row.fee (toFirmRow S firm) = Some 0)
    by (rewrite toFirmRow_fee, Hfind; simpl; now rewrite Hzero).
  assert (Hcheap : cheapestFee e propFirms S = Some 0).
  { apply cheapestFee_minimum. split.
    - now exists (toFirmRow S firm).
    - intros row f Hrow Hf.
      destruct (rows_fee_inv _ _ _ _ Hrow Hf) as (firm' & account' & H1 & H2 & <-).
      eauto. }
  assert (Hflag : isCheapest e propFirms S (toFirmRow S firm) = true)
    by (apply isCheapest_true; now exists 0).
  repeat split; try assumption.
  - unfold renderRow. cbn [upfrontFee]. now rewrite Hfee.
  - unfold renderRow, isCheapest. cbn [cheapestBadge]. rewrite H.
    now destruct (cheapestFee e propFirms S).
  - unfold renderRow. cbn [upfrontFee]. now rewrite H.
  - discriminate.
Qed.

Lemma zero_fee_is_present_witness :
  In (toFirmRow 10000 (firmNamed "Free" [tierFree]))
     (rows [firmNamed "A" [tier100]; firmNamed "Free" [tierFree]; firmNamed "C" []]
           10000) /\
  Row.fee (toFirmRow 10000 (firmNamed "Free" [tierFree])) = Some 0 /\
  cheapestFee ArraySort.PivotFirst
    [firmNamed "A" [tier100]; firmNamed "Free" [tierFree]; firmNamed "C" []]
    10000 = Some 0 /\
  isCheapest ArraySort.PivotFirst
    [firmNamed "A" [tier100]; firmNamed "Free" [tierFree]; firmNamed "C" []]
    10000 (toFirmRow 10000 (firmNamed "Free" [tierFree])) = true /\
  cheapestBadge (renderRow ArraySort.PivotFirst
    [firmNamed "A" [tier100]; firmNamed "Free" [tierFree]; firmNamed "C" []]
    10000 (toFirmRow 10000 (firmNamed "Free" [tierFree]))) = true /\
  upfrontFee (renderRow ArraySort.PivotFirst
    [firmNamed "A" [tier100]; firmNamed "Free" [tierFree]; firmNamed "C" []]
    10000 (toFirmRow 10000 (firmNamed "Free" [tierFree]))) = "$0"%string /\
  (forall row, Row.fee row = None ->
     cheapestBadge (renderRow ArraySort.PivotFirst
       [firmNamed "A" [tier100]; firmNamed "Free" [tierFree]; firmNamed "C" []]
       10000 row) = false /\
     upfrontFee (renderRow ArraySort.PivotFirst
       [firmNamed "A" [tier100]; firmNamed "Free" [tierFree]; firmNamed "C" []]
       10000 row) = placeholder) /\
  placeholder <> "$0"%string.
Proof.
  apply (zero_fee_is_present ArraySort.PivotFirst
           [firmNamed "A" [tier100]; firmNamed "Free" [tierFree]; firmNamed "C" []]
           10000 (firmNamed "Free" [tierFree]) tierFree).
  - intros firm' account' [<-|[<-|[<-|[]]]] Ha; simpl in Ha;
      repeat (destruct Ha as [<-|Ha]; [simpl; lia|]); contradiction.
  - right. left. reflexivity.
  - reflexivity.
  - reflexivity.
Defined.

(* ------------------------------------------------------------------ *)
(** * Selections on which the engine does not matter *)

(** The sorted fees do not depend on the engine. *)
Lemma available_engines (propFirms : list PropFirm) (S : Z) :
  available ArraySort.PivotFirst propFirms S =
  available ArraySort.PlacedFirst propFirms S.
Proof.
  unfold available.
  apply (sort_consistent compareFees _ compareFees_consistent ArraySort.PivotFirst).
  apply Forall_True.
Qed.

(** X6. When every firm has a tier of the selected size, the table does not
    depend on the way the engine calls the comparison function. *)
Lemma tableRows_engines (propFirms : list PropFirm) (S : Z) :
  (forall firm, In firm propFirms -> hasTier firm S) ->
  tableRows ArraySort.PivotFirst propFirms S =
  tableRows ArraySort.PlacedFirst propFirms S.
Proof.
  intros Hall. unfold tableRows.
  apply (sort_consistent compareRows _ compareRows_consistent_present
           ArraySort.PivotFirst).
  apply Forall_forall. intros row Hrow.
  unfold rows, toFirmRows in Hrow. apply in_map_iff in Hrow as (firm & <- & Hfirm).
  apply toFirmRow_fields. auto.
Qed.

(** X8. A size that no firm offers: every fee is absent, so are both
    highlight values, and no row is flagged. *)
Lemma size_without_tiers (e : engine) (propFirms : list PropFirm) (S : Z) :
  (forall firm, In firm propFirms -> ~ hasTier firm S) ->
  (forall row, In row (rows propFirms S) -> Row.fee row = None) /\
  cheapestFee e propFirms S = None /\
  nextBestFee e propFirms S = None /\
  (forall row, isCheapest e propFirms S row = false).
Proof.
  intros Hnone.
  assert (Hrows : forall row, In row (rows propFirms S) -> Row.fee row = None).
  { intros row Hrow. unfold rows, toFirmRows in Hrow.
    apply in_map_iff in Hrow as (firm & <- & Hfirm).
    now apply toFirmRow_fields, Hnone. }
  pose proof (proj2 (cheapestFee_None e propFirms S) Hrows) as Hc.
  split; [exact Hrows|]. split; [exact Hc|]. split.
  - unfold cheapestFee in Hc. unfold nextBestFee.
    now destruct (available e propFirms S).
  - intros row. unfold isCheapest. now rewrite Hc.
Qed.

(** The catalog of three firms of the specification: A at 100, B at 150 and
    C without a tier of the selected size. *)
Example scenario_three_firms (e : engine) :
  map key (tableBody e
    [firmNamed "A" [tier100]; firmNamed "B" [tier150]; firmNamed "C" [tier25k]]
    10000) = ["A"; "B"; "C"]%string /\
  map cheapestBadge (tableBody e
    [firmNamed "A" [tier100]; firmNamed "B" [tier150]; firmNamed "C" [tier25k]]
    10000) = [true; false; false] /\
  map savings (tableBody e
    [firmNamed "A" [tier100]; firmNamed "B" [tier150]; firmNamed "C" [tier25k]]
    10000) = [Some "Save $50 vs. next option"%string; None; None] /\
  map upfrontFee (tableBody e
    [firmNamed "A" [tier100]; firmNamed "B" [tier150]; firmNamed "C" [tier25k]]
    10000) = ["$100"; "$150"; placeholder]%string /\
  map Row.feePer10k (tableRows e
    [firmNamed "A" [tier100]; firmNamed "B" [tier150]; firmNamed "C" [tier25k]]
    10000) =
    [Some (JsNumber.mulZ (JsNumber.div 100 10000) 10000);
     Some (JsNumber.mulZ (JsNumber.div 150 10000) 10000); None].
Proof. destruct e; repeat split. Qed.

(** Thousands are grouped in a fee cell. *)
Example formatCurrency_samples :
  formatCurrency (Some 0) = "$0"%string /\
  formatCurrency (Some 999) = "$999"%string /\
  formatCurrency (Some 1000) = "$1,000"%string /\
  formatCurrency (Some 1234567) = "$1,234,567"%string /\
  formatCurrency None = placeholder.
Proof. repeat split. Qed.

(* ------------------------------------------------------------------ *)
(** * The fee column of the table *)

Lemma feesOf_perm (l1 l2 : list FirmRow) :
  Permutation l1 l2 -> Permutation (feesOf l1) (feesOf l2).
Proof.
  induction 1 as [|x l l' _ IH|x y l|l l' l'' _ IH1 _ IH2]; simpl.
  - constructor.
  - destruct (Row.fee x); [now constructor|assumption].
  - destruct (Row.fee x), (Row.fee y); try reflexivity. apply perm_swap.
  - eapply perm_trans; eassumption.
Qed.

Lemma feesOf_sorted (l : list FirmRow) :
  StronglySorted feeOrder l -> StronglySorted Z.le (feesOf l).
Proof.
  induction 1 as [|row l _ IH Hrow]; simpl; [constructor|].
  destruct (Row.fee row) as [f|] eqn:Hfee; [|assumption].
  constructor; [assumption|].
  apply Forall_forall. intros g Hg.
  apply In_feesOf in Hg as (r & Hr & Hfr).
  rewrite Forall_forall in Hrow. specialize (Hrow r Hr).
  unfold feeOrder in Hrow. now rewrite Hfee, Hfr in Hrow.
Qed.

(** In the order of the table the rows with a fee come first. *)
Lemma fee_column_shape (l : list FirmRow) :
  StronglySorted feeOrder l ->
  map Row.fee l =
  map Some (feesOf l) ++ repeat None (length l - length (feesOf l)).
Proof.
  induction 1 as [|row l _ IH Hrow]; [reflexivity|].
  cbn [map feesOf length]. destruct (Row.fee row) as [f|] eqn:Hfee.
  - cbn [map length]. rewrite IH at 1. reflexivity.
  - assert (Hnone : feesOf l = []).
    { apply feesOf_nil. intros r Hr. rewrite Forall_forall in Hrow.
      specialize (Hrow r Hr). unfold feeOrder in Hrow. rewrite Hfee in Hrow.
      now destruct (Row.fee r). }
    rewrite Hnone in *. cbn [map length app] in *.
    rewrite Nat.sub_0_r in *. cbn [repeat]. now rewrite IH.
Qed.

Lemma fee_column_eq (e : engine) (propFirms : list PropFirm) (S : Z) :
  map Row.fee (tableRows e propFirms S) =
  map Some (available e propFirms S) ++
  repeat None (length propFirms - length (available e propFirms S)).
Proof.
  pose proof (tableRows_sorted e propFirms S) as Hs.
  pose proof (tableRows_perm e propFirms S) as Hp.
  assert (Hav : feesOf (tableRows e propFirms S) = available e propFirms S).
  { symmetry. apply available_ascending; [now apply feesOf_sorted|].
    now apply feesOf_perm. }
  assert (Hcol := fee_column_shape _ Hs). rewrite Hav in Hcol.
  assert (Hlen : length (tableRows e propFirms S) = length propFirms).
  { rewrite (Permutation_length Hp). unfold rows, toFirmRows. apply length_map. }
  now rewrite Hlen in Hcol.
Qed.

(** The row at a position of the table carries the sorted fee at that
    position, or no fee beyond the sorted fees. *)
Lemma table_fee_nth (e : engine) (propFirms : list PropFirm) (S : Z)
  (i : nat) (row : FirmRow) :
  nth_error (tableRows e propFirms S) i = Some row ->
  Row.fee row = nth_error (available e propFirms S) i.
Proof.
  intros Hi.
  assert (H : nth_error (map Row.fee (tableRows e propFirms S)) i = Some (Row.fee row))
    by (apply map_nth_error; exact Hi).
  rewrite fee_column_eq in H.
  destruct (Nat.lt_ge_cases i (length (available e propFirms S))) as [Hin|Hout].
  - rewrite nth_error_app1 in H by now rewrite length_map.
    rewrite nth_error_map in H.
    destruct (nth_error (available e propFirms S) i); simpl in H; congruence.
  - rewrite nth_error_app2 in H by now rewrite length_map.
    rewrite (proj2 (nth_error_None _ _) Hout).
    pose proof (nth_error_In _ _ H) as Hin. apply repeat_spec in Hin. congruence.
Qed.

(** X1. Read from top to bottom, the fees of the table are the sorted array
    [available] followed by one absent fee per firm without a tier of the
    selected size; so the first row carries [cheapestFee] and the second row
    [nextBestFee]. *)
Theorem fee_column_is_available (e : engine) (propFirms : list PropFirm) (S : Z) :
  map Row.fee (tableRows e propFirms S) =
    map Some (available e propFirms S) ++
    repeat None (length propFirms - length (available e propFirms S)) /\
  (forall first, nth_error (tableRows e propFirms S) 0 = Some first ->
     Row.fee first = cheapestFee e propFirms S) /\
  (forall second, nth_error (tableRows e propFirms S) 1 = Some second ->
     Row.fee second = nextBestFee e propFirms S).
Proof.
  split; [apply fee_column_eq|].
  split; intros row Hrow; now apply table_fee_nth in Hrow.
Qed.

(** X2. The rows flagged cheapest lead the table: a row shown above a
    flagged row is flagged as well, and as soon as one firm has a tier of
    the selected size the first row of the table is flagged. *)
Theorem cheapest_rows_lead_table (e : engine) (propFirms : list PropFirm) (S : Z) :
  (forall i j a b, (i < j)%nat ->
     nth_error (tableRows e propFirms S) i = Some a ->
     nth_error (tableRows e propFirms S) j = Some b ->
     isCheapest e propFirms S b = true -> isCheapest e propFirms S a = true) /\
  ((exists firm, In firm propFirms /\ hasTier firm S) ->
   exists first, nth_error (tableRows e propFirms S) 0 = Some first /\
                 isCheapest e propFirms S first = true).
Proof.
  pose proof (tableRows_sorted e propFirms S) as Hs.
  pose proof (tableRows_perm e propFirms S) as Hp.
  split.
  - intros i j a b Hij Ha Hb Hflag.
    apply isCheapest_true in Hflag as (m & Hfb & Hc).
    pose proof (StronglySorted_nth _ _ Hs _ _ _ _ Hij Ha Hb) as Hab.
    unfold feeOrder in Hab. rewrite Hfb in Hab.
    destruct (Row.fee a) as [fa|] eqn:Hfa; [|contradiction].
    apply isCheapest_true. exists fa. split; [assumption|].
    apply cheapestFee_minimum in Hc as [_ Hmin].
    assert (m <= fa).
    { apply (Hmin a); [|assumption].
      apply (Permutation_in _ Hp). eapply nth_error_In; eassumption. }
    assert (fa = m) by lia. subst fa.
    apply cheapestFee_minimum. split; [|exact Hmin].
    exists a. split; [|assumption].
    apply (Permutation_in _ Hp). eapply nth_error_In; eassumption.
  - intros (firm & Hfirm & Htier).
    pose proof (table_fee_nth e propFirms S 0) as Hfirst.
    destruct (tableRows e propFirms S) as [|first rest] eqn:Htable.
    + exfalso. apply Permutation_nil in Hp.
      unfold rows, toFirmRows in Hp. destruct propFirms; [contradiction|discriminate].
    + exists first. split; [reflexivity|].
      specialize (Hfirst first eq_refl).
      destruct (cheapestFee e propFirms S) as [c|] eqn:Hc.
      * apply isCheapest_true. exists c. split; [|exact Hc].
        rewrite Hfirst. exact Hc.
      * exfalso. pose proof (proj1 (cheapestFee_None e propFirms S) Hc) as Hall.
        specialize (Hall (toFirmRow S firm)
                         (in_map (toFirmRow S) propFirms firm Hfirm)).
        now apply (proj1 (toFirmRow_fields S firm)) in Htier.
Qed.

Lemma present_ties_in_catalog_order_witness :
  exists m1 m2 m3,
    tableRows ArraySort.PlacedFirst
      [firmNamed "A" [tier100]; firmNamed "C" []; firmNamed "B" [tier100]] 10000 =
    m1 ++ toFirmRow 10000 (firmNamed "A" [tier100]) ::
    m2 ++ toFirmRow 10000 (firmNamed "B" [tier100]) :: m3.
Proof.
  apply (present_ties_in_catalog_order ArraySort.PlacedFirst
           [firmNamed "A" [tier100]; firmNamed "C" []; firmNamed "B" [tier100]]
           10000 100 [] [toFirmRow 10000 (firmNamed "C" [])] []); reflexivity.
Defined.

Lemma tableRows_engines_witness :
  tableRows ArraySort.PivotFirst
    [firmNamed "B" [tier150]; firmNamed "A" [tier25k; tier100]] 10000 =
  tableRows ArraySort.PlacedFirst
    [firmNamed "B" [tier150]; firmNamed "A" [tier25k; tier100]] 10000.
Proof.
  apply (tableRows_engines
           [firmNamed "B" [tier150]; firmNamed "A" [tier25k; tier100]] 10000).
  intros firm [<-|[<-|[]]].
  - exists tier150. split; [now left|reflexivity].
  - exists tier100. split; [right; now left|reflexivity].
Defined.

Lemma size_without_tiers_witness :
  (forall row,
     In row (rows [firmNamed "A" [tier100]; firmNamed "C" []] 50000) ->
     Row.fee row = None) /\
  cheapestFee ArraySort.PivotFirst
    [firmNamed "A" [tier100]; firmNamed "C" []] 50000 = None /\
  nextBestFee ArraySort.PivotFirst
    [firmNamed "A" [tier100]; firmNamed "C" []] 50000 = None /\
  (forall row,
     isCheapest ArraySort.PivotFirst
       [firmNamed "A" [tier100]; firmNamed "C" []] 50000 row = false).
Proof.
  apply (size_without_tiers ArraySort.PivotFirst
           [firmNamed "A" [tier100]; firmNamed "C" []] 50000).
  intros firm [<-|[<-|[]]] (account & Hin & Hsize); simpl in Hin.
  - destruct Hin as [<-|[]]. discriminate.
  - contradiction.
Defined.

(* ------------------------------------------------------------------ *)
(** * The answers of the table's comparison function *)

(** X4. The comparison function of the table answers 1 for two rows without
    a fee in either order; for every other pair its two answers have
    opposite signs.  It is a consistent comparison function on rows with a
    fee, and on no set of rows that holds a row without one. *)
Theorem compareRows_answers (a b : FirmRow) :
  (Row.fee a = None -> Row.fee b = None ->
   compareRows a b = 1 /\ compareRows b a = 1) /\
  (~ (Row.fee a = None /\ Row.fee b = None) ->
   signsAgree (compareRows a b) (compareRows b a)) /\
  (forall dom : FirmRow -> Prop,
     dom a -> Row.fee a = None -> ~ ArraySort.consistent compareRows dom) /\
  ArraySort.consistent compareRows (fun row => Row.fee row <> None).
Proof.
  split; [|split; [|split]].
  - unfold compareRows. intros -> ->. now split.
  - unfold compareRows, signsAgree.
    destruct (Row.fee a) as [fa|], (Row.fee b) as [fb|]; intros H;
      try reflexivity; [|exfalso; apply H; now split].
    destruct (Z.lt_trichotomy fa fb) as [Hlt|[->|Hgt]].
    + rewrite (Z.sgn_neg (fa - fb)), (Z.sgn_pos (fb - fa)) by lia. reflexivity.
    + now rewrite Z.sub_diag.
    + rewrite (Z.sgn_pos (fa - fb)), (Z.sgn_neg (fb - fa)) by lia. reflexivity.
  - intros dom. apply compareRows_not_consistent.
  - apply compareRows_consistent_present.
Qed.

(** X7. The highlight values and the cells that depend on them are the same
    for every engine: the comparison function of the fees is consistent. *)
Theorem highlights_do_not_depend_on_engine
  (e1 e2 : engine) (propFirms : list PropFirm) (S : Z) :
  available e1 propFirms S = available e2 propFirms S /\
  cheapestFee e1 propFirms S = cheapestFee e2 propFirms S /\
  nextBestFee e1 propFirms S = nextBestFee e2 propFirms S /\
  (forall row, renderRow e1 propFirms S row = renderRow e2 propFirms S row).
Proof.
  assert (Hav : available e1 propFirms S = available e2 propFirms S).
  { pose proof (available_engines propFirms S) as H.
    destruct e1, e2; auto. }
  split; [exact Hav|].
  unfold renderRow, savingsNote, savingsAmount, isCheapest, nextBestFee, cheapestFee.
  rewrite Hav. repeat split.
Qed.

(* ------------------------------------------------------------------ *)
(** * The savings shown on a flagged row *)

Lemma nextBestFee_repeats_minimum (e : engine) (propFirms : list PropFirm) (S m : Z) :
  cheapestFee e propFirms S = Some m ->
  (nextBestFee e propFirms S = Some m <->
   (2 <= count_occ Z.eq_dec (feesOf (rows propFirms S)) m)%nat).
Proof.
  intros Hc.
  pose proof (available_perm e propFirms S) as Hp.
  pose proof (available_sorted e propFirms S) as Hs.
  rewrite <- (proj1 (Permutation_count_occ Z.eq_dec _ _) Hp m).
  unfold cheapestFee in Hc. unfold nextBestFee.
  destruct (available e propFirms S) as [|h rest]; [discriminate|].
  injection Hc as ->. rewrite count_occ_cons_eq by reflexivity.
  cbn [nth_error]. split.
  - destruct rest as [|x rest']; [discriminate|]. intros [= ->].
    rewrite count_occ_cons_eq by reflexivity. lia.
  - intros Hcount.
    assert (Hin : In m rest) by (apply (count_occ_In Z.eq_dec); lia).
    destruct rest as [|x rest']; [contradiction|]. cbn [nth_error]. f_equal.
    inversion Hs as [|? ? Hs' Hh]; subst.
    inversion Hs' as [|? ? _ Hx]; subst.
    rewrite Forall_forall in Hh, Hx.
    assert (m <= x) by (apply Hh; now left).
    destruct Hin as [->|Hin]; [reflexivity|]. specialize (Hx _ Hin). lia.
Qed.

(** X9. When [nextBestFee] is present so is [cheapestFee], and it is not
    above it.  On a flagged row the savings are [nextBestFee - fee] itself,
    never negative, so the clamp at 0 never changes the amount; they are 0
    exactly when a second firm has the same fee. *)
Theorem savings_amount (e : engine) (propFirms : list PropFirm) (S : Z) :
  (forall nb, nextBestFee e propFirms S = Some nb ->
     exists c, cheapestFee e propFirms S = Some c /\ c <= nb) /\
  (forall row f nb,
     isCheapest e propFirms S row = true ->
     Row.fee row = Some f ->
     nextBestFee e propFirms S = Some nb ->
     savingsAmount e propFirms S row = Some (nb - f) /\
     0 <= nb - f /\
     (nb - f = 0 <->
      (2 <= count_occ Z.eq_dec (feesOf (rows propFirms S)) f)%nat)).
Proof.
  assert (Horder : forall nb, nextBestFee e propFirms S = Some nb ->
            exists c, cheapestFee e propFirms S = Some c /\ c <= nb).
  { intros nb Hnb. pose proof (available_sorted e propFirms S) as Hs.
    unfold nextBestFee in Hnb. unfold cheapestFee.
    destruct (available e propFirms S) as [|c rest] eqn:Hav; [discriminate|].
    exists c. split; [reflexivity|].
    apply (StronglySorted_nth _ _ Hs 0%nat 1%nat); [lia|reflexivity|assumption]. }
  split; [exact Horder|].
  intros row f nb Hflag Hfee Hnb.
  pose proof (savings_not_clamped e propFirms S row f nb Hflag Hfee Hnb) as Hsave.
  destruct (Horder nb Hnb) as (c & Hc & Hle).
  apply isCheapest_true in Hflag as (g & Hg & Hcg).
  assert (g = f) by congruence. assert (c = f) by congruence. subst g c.
  split; [exact Hsave|]. split; [lia|].
  rewrite <- (nextBestFee_repeats_minimum e propFirms S f Hc), Hnb.
  split; [intros H; f_equal; lia|intros [= ->]; lia].
Qed.

(* ------------------------------------------------------------------ *)
(** * The rows of the table and their keys *)

(** X10. Sorting neither drops nor repeats a firm: the table has one row per
    firm of the catalog, and when the names of the catalog are distinct so
    are the keys of the table rows. *)
Theorem table_rows_and_keys (e : engine) (propFirms : list PropFirm) (S : Z) :
  length (tableBody e propFirms S) = length propFirms /\
  Permutation (map Row.firm (tableRows e propFirms S)) propFirms /\
  Permutation (map key (tableBody e propFirms S)) (map Firm.name propFirms) /\
  (NoDup (map Firm.name propFirms) -> NoDup (map key (tableBody e propFirms S))).
Proof.
  pose proof (tableRows_perm e propFirms S) as Hp.
  assert (Hfirms : Permutation (map Row.firm (tableRows e propFirms S)) propFirms).
  { eapply perm_trans; [apply Permutation_map, Hp|].
    unfold rows, toFirmRows. rewrite map_map.
    rewrite (map_ext _ (fun firm => firm)) by apply toFirmRow_firm.
    rewrite map_id. reflexivity. }
  assert (Hkeys : Permutation (map key (tableBody e propFirms S))
                              (map Firm.name propFirms)).
  { unfold tableBody. rewrite map_map. cbn [renderRow key].
    rewrite <- (map_map Row.firm Firm.name). now apply Permutation_map. }
  split; [|split; [exact Hfirms|split; [exact Hkeys|]]].
  - unfold tableBody. rewrite length_map, (Permutation_length Hp).
    unfold rows, toFirmRows. apply length_map.
  - intros Hnodup. eapply Permutation_NoDup; [apply Permutation_sym, Hkeys|exact Hnodup].
Qed.

(* ------------------------------------------------------------------ *)
(** * The tier that a row is built from *)

Lemma find_first {A : Type} (p : A -> bool) (before after : list A) (x : A) :
  Forall (fun y => p y = false) before -> p x = true ->
  find p (before ++ x :: after) = Some x.
Proof.
  induction 1 as [|y before Hy _ IH]; intros Hx; simpl.
  - now rewrite Hx.
  - rewrite Hy. now apply IH.
Qed.

(** X11. When a firm lists several tiers of the selected size, its row is
    built from the first of them in the order of the firm's tiers. *)
Theorem row_uses_first_matching_tier
  (S : Z) (firm : PropFirm) (before after : list Tier.t) (account : Tier.t) :
  Firm.accounts firm = before ++ account :: after ->
  Forall (fun tier => Tier.size tier <> S) before ->
  Tier.size account = S ->
  findAccount firm S = Some account /\
  Row.fee (toFirmRow S firm) = Some (Tier.fee account) /\
  Row.payoutSplit (toFirmRow S firm) = Some (Tier.payoutSplit account) /\
  Row.drawdown (toFirmRow S firm) = Some (Tier.maxDrawdown account) /\
  Row.profitTarget (toFirmRow S firm) = Some (Tier.profitTarget account) /\
  Row.evaluationPhases (toFirmRow S firm) = Some (Tier.evaluationPhases account) /\
  Row.minTradingDays (toFirmRow S firm) = Some (Tier.minTradingDays account).
Proof.
  intros Haccounts Hbefore Hsize.
  assert (Hfind : findAccount firm S = Some account).
  { unfold findAccount. rewrite Haccounts. apply find_first.
    - eapply Forall_impl; [|exact Hbefore]. intros tier Hne. simpl in Hne.
      now apply Z.eqb_neq.
    - now apply Z.eqb_eq. }
  split; [exact Hfind|]. unfold toFirmRow. rewrite Hfind. repeat split.
Qed.

Lemma row_uses_first_matching_tier_witness :
  findAccount (firmNamed "A" [tier25k; tier100; tier150]) 10000 = Some tier100 /\
  Row.fee (toFirmRow 10000 (firmNamed "A" [tier25k; tier100; tier150])) = Some 100 /\
  Row.payoutSplit (toFirmRow 10000 (firmNamed "A" [tier25k; tier100; tier150])) =
    Some (Tier.payoutSplit tier100) /\
  Row.drawdown (toFirmRow 10000 (firmNamed "A" [tier25k; tier100; tier150])) =
    Some (Tier.maxDrawdown tier100) /\
  Row.profitTarget (toFirmRow 10000 (firmNamed "A" [tier25k; tier100; tier150])) =
    Some (Tier.profitTarget tier100) /\
  Row.evaluationPhases (toFirmRow 10000 (firmNamed "A" [tier25k; tier100; tier150])) =
    Some (Tier.evaluationPhases tier100) /\
  Row.minTradingDays (toFirmRow 10000 (firmNamed "A" [tier25k; tier100; tier150])) =
    Some (Tier.minTradingDays tier100).
Proof.
  apply (row_uses_first_matching_tier 10000
           (firmNamed "A" [tier25k; tier100; tier150]) [tier25k] [tier150] tier100).
  - reflexivity.
  - constructor; [discriminate|constructor].
  - reflexivity.
Defined.

(* ------------------------------------------------------------------ *)
(** * Reading a fee cell back *)

Lemma groupThousands_step (a b c d : ascii) (rest : list ascii) :
  groupThousands (a :: b :: c :: d :: rest) =
  a :: b :: c :: ","%char :: groupThousands (d :: rest).
Proof. reflexivity. Qed.

Lemma groupThousands_keeps_digits (n : nat) :
  forall l, (length l <= n)%nat ->
    Forall (fun ch => Ascii.eqb ch ","%char = false) l ->
    filter (fun ch => negb (Ascii.eqb ch ","%char)) (groupThousands l) = l.
Proof.
  induction n as [|n IH]; intros l Hlen Hl.
  - destruct l; [reflexivity|simpl in Hlen; lia].
  - destruct l as [|a [|b [|c [|d rest]]]];
      try (cbn [groupThousands];
           repeat match goal with
             | H : Forall _ (_ :: _) |- _ => inversion H; subst; clear H
             end;
           cbn [filter];
           repeat match goal with H : Ascii.eqb _ _ = false |- _ => rewrite H; clear H end;
           reflexivity).
    rewrite groupThousands_step.
    inversion Hl as [|? ? Ha Hl1]; subst. inversion Hl1 as [|? ? Hb Hl2]; subst.
    inversion Hl2 as [|? ? Hc Hl3]; subst.
    cbn [filter]. rewrite Ha, Hb, Hc. cbn [negb].
    change (Ascii.eqb ","%char ","%char) with true. cbn [negb].
    rewrite IH; [reflexivity| |assumption]. simpl in *. lia.
Qed.

Lemma uint_digits_no_comma (d : Decimal.uint) :
  Forall (fun ch => Ascii.eqb ch ","%char = false)
         (list_ascii_of_string (NilEmpty.string_of_uint d)).
Proof. induction d; simpl; constructor; auto. Qed.

Lemma digits_no_comma (n : N) :
  Forall (fun ch => Ascii.eqb ch ","%char = false) (digits n).
Proof.
  unfold digits, NilZero.string_of_uint.
  destruct (N.to_uint n); try apply uint_digits_no_comma.
  repeat constructor.
Qed.

Lemma list_ascii_of_string_app (s1 s2 : string) :
  list_ascii_of_string (s1 ++ s2) =
  list_ascii_of_string s1 ++ list_ascii_of_string s2.
Proof. induction s1 as [|ch s1 IH]; simpl; [reflexivity|now rewrite IH]. Qed.

(** Without its separators the grouped number is the plain decimal
    number. *)
Lemma removeCommas_toLocaleString (v : Z) :
  removeCommas (toLocaleString v) = toFixed0 v.
Proof.
  unfold removeCommas, toLocaleString.
  rewrite list_ascii_of_string_app, list_ascii_of_string_of_list_ascii, filter_app.
  rewrite filter_rev.
  rewrite (groupThousands_keeps_digits _ _ (Nat.le_refl _))
    by (apply Forall_rev, digits_no_comma).
  rewrite rev_involutive. unfold digits, toFixed0.
  destruct v as [|p|p]; simpl;
    rewrite ?string_of_list_ascii_of_string; reflexivity.
Qed.

Lemma toFixed0_parses (v : Z) :
  option_map Z.of_int (NilZero.int_of_string (toFixed0 v)) = Some v.
Proof.
  unfold toFixed0. rewrite NilZero.isi.
  - simpl. f_equal. apply DecimalZ.of_to.
  - destruct v; simpl; try discriminate.
    intros [= H]. now apply DecimalPos.Unsigned.to_uint_nonnil in H.
  - destruct v; simpl; try discriminate.
    intros [= H]. now apply DecimalPos.Unsigned.to_uint_nonnil in H.
Qed.

(** X13. A fee cell can be read back: the placeholder stands for an absent
    fee only, and the text after the dollar sign, without its thousands
    separators, is the fee in decimal digits.  So two different fees never
    share a cell text, and a fee of 0 is not shown like an absent fee. *)
Theorem formatCurrency_read_back :
  (forall value, parseCurrency (formatCurrency value) = Some value) /\
  (forall x y, formatCurrency x = formatCurrency y -> x = y) /\
  (forall v, exists text,
     formatCurrency (Some v) = String "$"%char text /\ removeCommas text = toFixed0 v).
Proof.
  assert (Hback : forall value, parseCurrency (formatCurrency value) = Some value).
  { intros [v|]; [|reflexivity].
    unfold parseCurrency, formatCurrency, placeholder.
    cbn [append String.eqb Ascii.eqb Bool.eqb andb]. cbv iota.
    rewrite removeCommas_toLocaleString.
    pose proof (toFixed0_parses v) as H.
    destruct (NilZero.int_of_string (toFixed0 v)); simpl in *; congruence. }
  split; [exact Hback|]. split.
  - intros x y H. pose proof (Hback x) as Hx. rewrite H, Hback in Hx. congruence.
  - intros v. exists (toLocaleString v). split; [reflexivity|].
    apply removeCommas_toLocaleString.
Qed.

(* ------------------------------------------------------------------ *)
(** * The cells of a firm without a tier *)

Lemma string_length_app (s1 s2 : string) :
  String.length (s1 ++ s2) = (String.length s1 + String.length s2)%nat.
Proof. induction s1 as [|ch s1 IH]; simpl; [reflexivity|now rewrite IH]. Qed.

Lemma suffixed_not_placeholder (s suffix : string) :
  (3 < String.length suffix)%nat -> (s ++ suffix)%string <> placeholder.
Proof.
  intros Hlen H. apply (f_equal String.length) in H.
  rewrite string_length_app in H. simpl in H. lia.
Qed.

(** X14. The cells of a row tell whether the firm has a tier of the selected
    size: the fee, fee per 10k, minimum days and phases cells are the
    placeholder exactly when it has none, and then the other descriptive
    cells are the placeholder too, without badge and without savings. *)
Theorem cells_without_a_tier
  (toFixed2 : number -> string) (e : engine) (propFirms : list PropFirm) (S : Z)
  (firm : PropFirm) :
  (upfrontFee (renderRow e propFirms S (toFirmRow S firm)) = placeholder <->
   ~ hasTier firm S) /\
  (feePer10kCell (renderRiskCells toFixed2 (toFirmRow S firm)) = placeholder <->
   ~ hasTier firm S) /\
  (minDaysCell (renderRiskCells toFixed2 (toFirmRow S firm)) = placeholder <->
   ~ hasTier firm S) /\
  (phasesCell (renderRiskCells toFixed2 (toFirmRow S firm)) = placeholder <->
   ~ hasTier firm S) /\
  (~ hasTier firm S ->
   payoutSplitCell (renderRiskCells toFixed2 (toFirmRow S firm)) = placeholder /\
   drawdownCell (renderRiskCells toFixed2 (toFirmRow S firm)) = placeholder /\
   profitTargetCell (renderRiskCells toFixed2 (toFirmRow S firm)) = placeholder /\
   cheapestBadge (renderRow e propFirms S (toFirmRow S firm)) = false /\
   savings (renderRow e propFirms S (toFirmRow S firm)) = None).
Proof.
  rewrite <- findAccount_hasTier.
  unfold renderRow, renderRiskCells, savingsNote, savingsAmount, isCheapest.
  unfold toFirmRow.
  destruct (findAccount firm S) as [account|];
    cbn [Row.fee Row.feePer10k Row.payoutSplit Row.drawdown Row.profitTarget
         Row.evaluationPhases Row.minTradingDays upfrontFee feePer10kCell
         minDaysCell phasesCell payoutSplitCell drawdownCell profitTargetCell
         cheapestBadge savings formatCurrency formatFeePer10k orPlaceholder].
  - assert (Hsome : ~ ~ Some account <> None) by (intros H; apply H; discriminate).
    split; [|split; [|split; [|split]]].
    + split; [intros H; discriminate H|intros H; now destruct Hsome].
    + split; [intros H; discriminate H|intros H; now destruct Hsome].
    + split; [intros H|intros H; now destruct Hsome].
      exfalso. revert H. apply suffixed_not_placeholder. simpl. lia.
    + split; [intros H|intros H; now destruct Hsome].
      exfalso. revert H. apply suffixed_not_placeholder. simpl. lia.
    + intros H. now destruct Hsome.
  - assert (Hnone : ~ (@None Tier.t) <> None) by (intros H; now apply H).
    split; [|split; [|split; [|split]]]; try (split; [intros _; exact Hnone|reflexivity]).
    intros _. repeat split.
    + now destruct (cheapestFee e propFirms S).
    + now destruct (notNull (cheapestFee e propFirms S) &&
                    strictEqual None (cheapestFee e propFirms S)).
Qed.

(* ------------------------------------------------------------------ *)
(** * The size selector *)

Lemma clickPill_nth (accountSizes : list Z) (i : nat) (selectedSize : Z) :
  clickPill accountSizes i selectedSize =
  match nth_error accountSizes i with
  | Some size => size
  | None => selectedSize
  end.
Proof.
  unfold clickPill, sizePills. rewrite nth_error_map.
  now destruct (nth_error accountSizes i).
Qed.

Lemma clicks_stay_supported (accountSizes : list Z) (clicks : list nat) (start : Z) :
  start = initialSelectedSize \/ In start accountSizes ->
  fold_left (fun sel i => clickPill accountSizes i sel) clicks start =
    initialSelectedSize \/
  In (fold_left (fun sel i => clickPill accountSizes i sel) clicks start)
     accountSizes.
Proof.
  revert start. induction clicks as [|i clicks IH]; intros start Hstart.
  - exact Hstart.
  - cbn [fold_left]. apply IH. rewrite clickPill_nth.
    destruct (nth_error accountSizes i) as [size|] eqn:Hi; [|exact Hstart].
    right. eapply nth_error_In; eassumption.
Qed.

(** X15. After any sequence of clicks on the size buttons the selected size
    is the initial 10000 or one of the supported sizes, and after a click on
    a button it is the size of that button, whatever was selected before. *)
Theorem selection_after_clicks (accountSizes : list Z) (clicks : list nat) :
  (afterClicks accountSizes clicks = initialSelectedSize \/
   In (afterClicks accountSizes clicks) accountSizes) /\
  (forall i size, nth_error accountSizes i = Some size ->
     afterClicks accountSizes (clicks ++ [i]) = size).
Proof.
  split.
  - apply clicks_stay_supported. now left.
  - intros i size Hi. unfold afterClicks. rewrite fold_left_app. cbn [fold_left].
    now rewrite clickPill_nth, Hi.
Qed.

Lemma isActive_pill (selectedSize size : Z) (pill : Pill) :
  className pill =
    String.append "pill " (if selectedSize =? size then "active"%string else EmptyString) ->
  isActive pill = (selectedSize =? size).
Proof.
  unfold isActive. intros ->. now destruct (selectedSize =? size).
Qed.

Lemma active_count (accountSizes : list Z) (selectedSize : Z) :
  length (filter isActive (sizePills accountSizes selectedSize)) =
  count_occ Z.eq_dec accountSizes selectedSize.
Proof.
  unfold sizePills. induction accountSizes as [|size sizes IH]; [reflexivity|].
  cbn [map filter]. rewrite (isActive_pill selectedSize size) by reflexivity.
  destruct (Z.eqb_spec selectedSize size) as [->|Hne].
  - rewrite count_occ_cons_eq by reflexivity. cbn [length]. now f_equal.
  - rewrite count_occ_cons_neq by congruence. exact IH.
Qed.

(** X16. The selector has one button per supported size.  A button is
    marked active exactly when its size is the selected one, so the number
    of active buttons is the number of times the selected size occurs among
    the supported sizes: the button just clicked is active, and a fresh page
    marks no button when 10000 is not a supported size. *)
Theorem active_size_buttons (accountSizes : list Z) (selectedSize : Z) :
  length (sizePills accountSizes selectedSize) = length accountSizes /\
  (forall pill, In pill (sizePills accountSizes selectedSize) ->
     (isActive pill = true <-> pillKey pill = selectedSize)) /\
  length (filter isActive (sizePills accountSizes selectedSize)) =
    count_occ Z.eq_dec accountSizes selectedSize /\
  (forall i size, nth_error accountSizes i = Some size ->
     exists pill,
       nth_error (sizePills accountSizes (clickPill accountSizes i selectedSize)) i =
         Some pill /\
       isActive pill = true /\
       label pill = ("$" ++ toLocaleString size)%string) /\
  (~ In initialSelectedSize accountSizes ->
   forall pill, In pill (sizePills accountSizes initialSelectedSize) ->
     isActive pill = false).
Proof.
  assert (Hact : forall sel pill, In pill (sizePills accountSizes sel) ->
            In (pillKey pill) accountSizes /\ isActive pill = (sel =? pillKey pill)).
  { intros sel pill Hin. unfold sizePills in Hin.
    apply in_map_iff in Hin as (size & <- & Hsize). split; [exact Hsize|].
    now apply isActive_pill. }
  split; [apply length_map|]. split; [|split; [|split]].
  - intros pill Hin. destruct (Hact _ _ Hin) as [_ ->]. rewrite Z.eqb_eq.
    split; congruence.
  - apply active_count.
  - intros i size Hi. rewrite clickPill_nth, Hi.
    unfold sizePills. rewrite nth_error_map, Hi. cbn [option_map].
    eexists. split; [reflexivity|]. split; [|reflexivity].
    rewrite (isActive_pill size size) by reflexivity. apply Z.eqb_refl.
  - intros Hnot pill Hin. destruct (Hact _ _ Hin) as [Hkey ->].
    apply Z.eqb_neq. intros Heq. apply Hnot. now rewrite Heq.
Qed.

(* ------------------------------------------------------------------ *)
(** * When the savings are shown *)

(** X17. The savings annotation is shown on a row exactly when the row is
    flagged cheapest and at least two firms have a tier of the selected
    size; it then reads "Save $", an amount that is not negative, and
    " vs. next option".  A selection that a single firm offers shows the
    badge without savings. *)
Theorem savings_shown_iff
  (e : engine) (propFirms : list PropFirm) (S : Z) (row : FirmRow) :
  (savings (renderRow e propFirms S row) <> None <->
   isCheapest e propFirms S row = true /\
   (2 <= length (filter feeNotNull (rows propFirms S)))%nat) /\
  (forall text, savings (renderRow e propFirms S row) = Some text ->
     exists amount,
       0 <= amount /\
       text = ("Save $" ++ toFixed0 amount ++ " vs. next option")%string).
Proof.
  pose proof (nextBestFee_None e propFirms S) as Hnone.
  unfold renderRow, savingsNote, savingsAmount. cbn [savings].
  destruct (isCheapest e propFirms S row) eqn:Hflag.
  - pose proof (proj1 (isCheapest_true e propFirms S row) Hflag) as (f & Hfee & _).
    rewrite Hfee.
    destruct (nextBestFee e propFirms S) as [nb|] eqn:Hnb.
    + split.
      * split; [intros _|discriminate]. split; [reflexivity|].
        destruct (Nat.lt_ge_cases (length (filter feeNotNull (rows propFirms S))) 2)
          as [Hlt|Hge]; [|exact Hge].
        apply Hnone in Hlt. discriminate.
      * intros text [= <-]. exists (Z.max 0 (nb - f)). split; [lia|reflexivity].
    + split.
      * split; [congruence|]. intros [_ Hge].
        assert (H : (length (filter feeNotNull (rows propFirms S)) < 2)%nat)
          by now apply Hnone.
        lia.
      * discriminate.
  - split; [|discriminate]. split; [congruence|]. intros [H _]. discriminate.
Qed.
